(** * button3.py: debounced push buttons, callback dispatch and the PWM volume

    A shallow embedding of [src/button3.py] (MicroPython, Raspberry Pi Pico).

    - [KeyList] is the (key, value) list of the source, searched linearly.
    - A [Button] is a record on a heap of objects; object identity is the
      index on that heap. The class attribute [Button._kroster] is one field
      of the [World], shared by every button.
    - The interrupt handler [_handler] is a state transformer on the [World].
      What it reads from the hardware (the millisecond clock, twice, and the
      pin levels) comes with the [Edge] that is delivered.
    - A callback is an opaque callable: calling it is recorded, with the
      arguments of the call site, in the [calls] of the world. It returns,
      and it leaves the buttons and the roster alone, as the callbacks of
      the script do.
    - Methods that can raise return the state they leave behind together
      with [Err e] or [Ok v].
    - Console output ([print]) is not modelled. *)

From Stdlib Require Import ZArith QArith Qround Lia Bool.
From stdpp Require Import base option list sorting strings pretty gmap.

Local Open Scope Z_scope.

(** ** Python values, exceptions, results *)

(** Identity of a [Button] object: its index on the heap. *)
Abbreviation ref := nat.

(** The values a callback bundle can hold. *)
#[warnings="-register-all"]
Inductive pyval :=
| PNone
| PBool (b : bool)
| PInt (z : Z)
| PStr (s : string)
| PTuple (vs : list pyval)
| PList (vs : list pyval)
| PObj (r : ref).

(** A keyword bundle: a dict with string keys, in insertion order. *)
Definition kwdict := list (string * pyval).

(** A callable is known by its name only. *)
Definition callable := string.

Inductive exn :=
| AssertionError (msg : string)
| AttributeError (msg : string)
| TypeError (msg : string)
| ZeroDivisionError
| ValueError.

Inductive result (A : Type) :=
| Ok (a : A)
| Err (e : exn).
Arguments Ok {A} a.
Arguments Err {A} e.

Definition bind {A B} (x : result A) (k : A -> result B) : result B :=
  match x with
  | Ok a => k a
  | Err e => Err e
  end.

Notation "'let*' x ':=' c1 'in' c2" := (bind c1 (fun x => c2))
  (at level 10, x name, c1 at level 100, c2 at level 200).

(** ** class KeyList *)

Module KeyList.
Section KeyList.
Context {K V : Type} `{EqDecision K}.

(** [self._klist: list[tuple[object, object]]]. *)
Local Abbreviation t := (list (K * V)).

Definition new : t := [].

(** [for i in range(len(self._klist))]: the scan from index [i] on, over
    the entries that are left. *)
Fixpoint _findkey_from (l : t) (key : K) (i : Z) : Z :=
  match l with
  | [] => -1
  | (k, _) :: l' =>
      if decide (k = key) then i else _findkey_from l' key (i + 1)
  end.

Definition _findkey (l : t) (key : K) : Z := _findkey_from l key 0.

Definition __setitem__ (l : t) (key : K) (value : V) : t :=
  let i := _findkey l key in
  if negb (i =? -1) then <[Z.to_nat i := (key, value)]> l
  else l ++ [(key, value)].

Definition __getitem__ (l : t) (key : K) : option V :=
  let i := _findkey l key in
  if negb (i =? -1) then snd <$> (l !! Z.to_nat i)
  else None.

Definition keys (l : t) : list K := fst <$> l.

Definition values (l : t) : list V := snd <$> l.
End KeyList.
End KeyList.

(** ** The platform: pins, signals, the millisecond clock *)

(** A pin is known by its GPIO number; [machine.Pin(n)] is one object per
    number. *)
Abbreviation Pin := nat.

Inductive Trigger := IRQ_FALLING | IRQ_RISING.

(** [machine.Signal(pin, invert=...)]. *)
Record Signal := { sig_pin : Pin; sig_invert : bool }.

(** [Signal.value()]: the level of the pin, negated for an inverted signal.
    [levels] is what the pins read at that moment. *)
Definition Signal_value (levels : Pin -> bool) (s : Signal) : bool :=
  xorb (levels (sig_pin s)) (sig_invert s).

(** [time.ticks_ms()] counts milliseconds modulo [TICKS_PERIOD]: [ticks_ms t]
    is what it returns [t] ms after the counter started. [time.ticks_diff]
    is the signed difference of two readings on that ring, as MicroPython
    documents it. *)
Definition TICKS_PERIOD : Z := 2 ^ 30.
Definition TICKS_HALF : Z := TICKS_PERIOD / 2.

Definition ticks_ms (t : Z) : Z := t mod TICKS_PERIOD.

Definition ticks_diff (t1 t2 : Z) : Z :=
  (t1 - t2 + TICKS_HALF) mod TICKS_PERIOD - TICKS_HALF.

(** ** class Button *)

Record Button := {
  _pin : Pin;
  _invert : bool;
  _signal : Signal;
  _name : string;
  _time_ticks : Z;
  _dtime : Z;
  _count : Z;
  _function : option callable;
  _fargs : pyval;
  _fkwargs : option kwdict
}.

(** One call of a callback, as the call site composes it: the positional
    arguments, then the keyword arguments in the order they are written. *)
Record Call := {
  c_function : callable;
  c_args : list pyval;
  c_kwargs : kwdict
}.

Record World := {
  heap : list Button;
  _kroster : list (Pin * ref);
  irq : gmap Pin Trigger;
  calls : list Call
}.

Definition empty_world : World :=
  {| heap := []; _kroster := KeyList.new; irq := ∅; calls := [] |}.

(** What the hardware presents while one interrupt is served: the pin that
    fired, the time (in ms) at which the handler reads the clock for the
    debounce check, the pin levels at the ghost check, and the time at which
    it reads the clock again to store the timestamp. *)
Record Edge := {
  e_pin : Pin;
  e_now : Z;
  e_levels : Pin -> bool;
  e_now' : Z
}.

(** [repr(pin).split("(")[1].split(",")[0]] on [Pin(GPIOn, mode=...)]. *)
Definition _get_name (pin : Pin) : string := "GPIO" +:+ pretty (N.of_nat pin).

Definition _get_myself (w : World) (pin : Pin) : option ref :=
  KeyList.__getitem__ (_kroster w) pin.

(** [btn = Button._kroster[_pin]; if btn: del btn] unbinds the local name
    only; the entry is replaced by the assignment that follows. *)
Definition _put_myself (w : World) (self : ref) (pin : Pin) : World :=
  {| heap := heap w;
     _kroster := KeyList.__setitem__ (_kroster w) pin self;
     irq := irq w;
     calls := calls w |}.

(** [self in self._kroster.values()]: buttons compare by identity. *)
Definition _exist_myself (w : World) (self : ref) : bool :=
  bool_decide (self ∈ KeyList.values (_kroster w)).

(** [name if name else ...]: [None] and the empty string are false. *)
Definition name_or_default (name : option string) (pin : Pin) : string :=
  match name with
  | Some (String c s) => String c s
  | _ => _get_name pin
  end.

(** [Button.__init__]: the new object, entered in the roster, its pin armed. *)
Definition Button_init (w : World) (pin : Pin) (name : option string)
    (invert : bool) (bouncetime : Z) (function : option callable)
    (args : pyval) (kwargs : option kwdict) : World * ref :=
  let self := length (heap w) in
  let b := {| _pin := pin;
              _invert := invert;
              _signal := {| sig_pin := pin; sig_invert := invert |};
              _name := name_or_default name pin;
              _time_ticks := 0;
              _dtime := bouncetime;
              _count := 0;
              _function := function;
              _fargs := args;
              _fkwargs := kwargs |} in
  let w1 := {| heap := heap w ++ [b];
               _kroster := _kroster w;
               irq := irq w;
               calls := calls w |} in
  let w2 := _put_myself w1 self pin in
  ({| heap := heap w2;
      _kroster := _kroster w2;
      irq := <[pin := if invert then IRQ_FALLING else IRQ_RISING]> (irq w2);
      calls := calls w2 |}, self).

(** [fargs is not None]. *)
Definition is_not_None (v : pyval) : bool :=
  match v with
  | PNone => false
  | _ => true
  end.

(** [isinstance(fargs, tuple)]. *)
Definition isinstance_tuple (v : pyval) : bool :=
  match v with
  | PTuple _ => true
  | _ => false
  end.

(** [*fargs] on a tuple: its items. *)
Definition star (v : pyval) : list pyval :=
  match v with
  | PTuple vs => vs
  | _ => []
  end.

(** [if fkwargs:] [None] and the empty dict are false. *)
Definition truthy (fkwargs : option kwdict) : bool :=
  match fkwargs with
  | Some (_ :: _) => true
  | _ => false
  end.

(** [**fkwargs]: the items of the dict. *)
Definition star_star (fkwargs : option kwdict) : kwdict :=
  match fkwargs with
  | Some d => d
  | None => []
  end.

Definition myself_kw (self : ref) : kwdict := [("myself"%string, PObj self)].

(** A call of [function], as the call site composes it. *)
Definition call (function : callable) (args : list pyval) (kwargs : kwdict)
    : Call :=
  {| c_function := function; c_args := args; c_kwargs := kwargs |}.

(** [Button._do_function]: the call it makes. *)
Definition _do_function (self : ref) (function : callable) (fargs : pyval)
    (fkwargs : option kwdict) : Call :=
  if is_not_None fargs then
    let fargs := if negb (isinstance_tuple fargs) then PTuple [fargs]
                 else fargs in
    if truthy fkwargs then
      call function (star fargs) (star_star fkwargs ++ myself_kw self)
    else
      call function (star fargs) (myself_kw self)
  else if truthy fkwargs then
    call function [] (star_star fkwargs ++ myself_kw self)
  else
    call function [] (myself_kw self).

Definition with_count (b : Button) (n : Z) : Button :=
  {| _pin := _pin b; _invert := _invert b; _signal := _signal b;
     _name := _name b; _time_ticks := _time_ticks b; _dtime := _dtime b;
     _count := n;
     _function := _function b; _fargs := _fargs b; _fkwargs := _fkwargs b |}.

Definition with_time_ticks (b : Button) (t : Z) : Button :=
  {| _pin := _pin b; _invert := _invert b; _signal := _signal b;
     _name := _name b; _time_ticks := t; _dtime := _dtime b;
     _count := _count b;
     _function := _function b; _fargs := _fargs b; _fkwargs := _fkwargs b |}.

Definition with_function (b : Button) (function : option callable)
    (args : pyval) (kwargs : option kwdict) : Button :=
  {| _pin := _pin b; _invert := _invert b; _signal := _signal b;
     _name := _name b; _time_ticks := _time_ticks b; _dtime := _dtime b;
     _count := _count b;
     _function := function; _fargs := args; _fkwargs := kwargs |}.

Definition with_button (w : World) (r : ref) (b : Button) : World :=
  {| heap := <[r := b]> (heap w);
     _kroster := _kroster w;
     irq := irq w;
     calls := calls w |}.

Definition with_call (w : World) (c : Call) : World :=
  {| heap := heap w;
     _kroster := _kroster w;
     irq := irq w;
     calls := calls w ++ [c] |}.

(** [Button._handler], the interrupt handler shared by every pin. *)
Definition _handler (w : World) (e : Edge) : World :=
  match _get_myself w (e_pin e) with
  | None => w
  | Some r =>
      match heap w !! r with
      | None => w
      | Some myself =>
          if ticks_diff (ticks_ms (e_now e)) (_time_ticks myself)
             <? _dtime myself then w
          else if negb (Signal_value (e_levels e) (_signal myself)) then w
          else
            let myself := with_count myself (_count myself + 1) in
            let w := with_button w r myself in
            let w := match _function myself with
                     | Some f =>
                         with_call w
                           (_do_function r f (_fargs myself) (_fkwargs myself))
                     | None => w
                     end in
            with_button w r (with_time_ticks myself (ticks_ms (e_now' e)))
      end
  end.

(** [set_function]: the assertion, then the three assignments. *)
Definition expired_msg (self : ref) : string :=
  "<Button object " +:+ pretty (N.of_nat self) +:+ "> is expired!".

Definition set_function (w : World) (self : ref) (function : option callable)
    (args : pyval) (kwargs : option kwdict) : World * result unit :=
  if _exist_myself w self then
    match heap w !! self with
    | Some b =>
        (with_button w self (with_function b function args kwargs), Ok tt)
    | None => (w, Ok tt)
    end
  else (w, Err (AssertionError (expired_msg self))).

Definition get_count (w : World) (self : ref) : Z :=
  from_option _count 0 (heap w !! self).

Definition reset_count (w : World) (self : ref) : World :=
  match heap w !! self with
  | Some b => with_button w self (with_count b 0)
  | None => w
  end.

Definition get_name (w : World) (self : ref) : string :=
  from_option _name "" (heap w !! self).

(** [get_signal]: [self._signal()], which is [Signal.value()]. *)
Definition get_signal (levels : Pin -> bool) (b : Button) : bool :=
  Signal_value levels (_signal b).

(** A sequence of interrupts, served one after the other. *)
Fixpoint run (w : World) (es : list Edge) : World :=
  match es with
  | [] => w
  | e :: es' => run (_handler w e) es'
  end.

(** The edges of [es] that increment the counter of button [r], in order. *)
Fixpoint accepted_by (r : ref) (w : World) (es : list Edge) : list Edge :=
  match es with
  | [] => []
  | e :: es' =>
      let w' := _handler w e in
      (if get_count w' r =? get_count w r + 1 then [e] else [])
      ++ accepted_by r w' es'
  end.

(** ** Python arithmetic, as far as [Volume.u16value] needs it

    The duty cycle is computed in floating point. The floats and the
    operations the platform computes on them are an interface; what Python
    itself decides before it computes (a zero divisor, a zero base under a
    negative exponent) is written out here. Ints are taken to convert to
    floats: the conversion of an int beyond the range of the floats is left
    out. *)

Class PyFloat (F : Type) := {
  f_of_Q : Q -> F;                    (* a literal or an int, as a float *)
  f_pow : F -> F -> F;
  f_div : F -> F -> F;
  f_mul : F -> F -> F;
  f_sub : F -> F -> F;
  f_cmp0 : F -> option comparison;    (* against 0.0; [None] for a NaN *)
  f_isinf : F -> bool;                (* plus or minus infinity *)
  f_to_int : F -> result Z;           (* [int(x)]: raises on NaN, infinity *)
  f_cmp0_zero : f_cmp0 (f_of_Q 0) = Some Eq;
  f_cmp0_C : f_cmp0 (f_of_Q 0.7) = Some Gt
}.

Section Arith.
Context {F : Type} `{PyFloat F}.

Definition f_of_Z (z : Z) : F := f_of_Q (inject_Z z).

Inductive num :=
| NInt (z : Z)
| NFloat (f : F).

(** [self._exp: int | float]. *)
Inductive exponent :=
| EInt (n : Z)
| EFloat (y : F).

(** [b ** e] for an int [b]. An int power with an exponent below zero is
    computed on floats. Zero to a negative power raises, unless the exponent
    is minus infinity; zero to a positive power is zero. *)
Definition py_pow (b : Z) (e : exponent) : result num :=
  match e with
  | EInt n =>
      if 0 <=? n then Ok (NInt (b ^ n))
      else if b =? 0 then Err ZeroDivisionError
      else Ok (NFloat (f_pow (f_of_Z b) (f_of_Z n)))
  | EFloat y =>
      if b =? 0 then
        match f_cmp0 y with
        | Some Lt =>
            if f_isinf y then Ok (NFloat (f_pow (f_of_Z b) y))
            else Err ZeroDivisionError
        | Some Gt => Ok (NFloat (f_of_Z 0))
        | _ => Ok (NFloat (f_pow (f_of_Z b) y))
        end
      else Ok (NFloat (f_pow (f_of_Z b) y))
  end.

Definition to_float (x : num) : F :=
  match x with
  | NInt z => f_of_Z z
  | NFloat f => f
  end.

Definition is_zero (x : num) : bool :=
  match x with
  | NInt z => z =? 0
  | NFloat f => match f_cmp0 f with Some Eq => true | _ => false end
  end.

(** [x / y]: true division, a float; a zero divisor raises. *)
Definition py_truediv (x y : num) : result F :=
  if is_zero y then Err ZeroDivisionError
  else Ok (f_div (to_float x) (to_float y)).
End Arith.

Arguments num F : clear implicits.
Arguments exponent F : clear implicits.

(** ** [machine.PWM]: the frequency and the duty cycle last written *)

Record PWM := { pwm_freq : option Z; pwm_duty : option Z }.

Definition PWM_freq (pwm : PWM) (freq : Z) : PWM :=
  {| pwm_freq := Some freq; pwm_duty := pwm_duty pwm |}.

Definition PWM_duty_u16 (pwm : PWM) (duty : Z) : PWM :=
  {| pwm_freq := pwm_freq pwm; pwm_duty := Some duty |}.

(** ** class Volume *)

Module Volume.
Section Volume.
Context {F : Type} `{PyFloat F}.

(** The argument [curve]: an int, a float, a string or any other object. *)
Inductive Curve :=
| CInt (z : Z)
| CFloat (f : F)
| CStr (s : string)
| CObj (v : pyval).

Record t := {
  _min : Z;
  _max : Z;
  _range : Z;
  _vol : Z;
  _invert : bool;
  _exp : option (exponent F)
}.

Definition curve_msg : string :=
  "The value of the argument 'curve' must be one of the following:"
  +:+ " 'A','B','C','D' or numeric".

(** [list('ABCD')]. *)
Definition curve_letters : list string := ["A"; "B"; "C"; "D"]%string.

(** [{'A': 2, 'B': 1, 'C': 0.7, 'D': 3}]. *)
Definition curve_table : list (string * exponent F) :=
  [("A", EInt 2); ("B", EInt 1); ("C", EFloat (f_of_Q 0.7));
   ("D", EInt 3)]%string.

Fixpoint dict_get {A} (d : list (string * A)) (k : string) : option A :=
  match d with
  | [] => None
  | (k', v) :: d' => if decide (k' = k) then Some v else dict_get d' k
  end.

(** The branch on [type(curve)], the assertion and the table lookup. *)
Definition curve_exp (curve : Curve) : result (option (exponent F)) :=
  match curve with
  | CInt z => Ok (Some (EInt z))
  | CFloat f => Ok (Some (EFloat f))
  | CStr s =>
      if bool_decide (s ∈ curve_letters) then Ok (dict_get curve_table s)
      else Err (AssertionError curve_msg)
  | CObj _ => Err (AssertionError curve_msg)
  end.

Definition u16value (self : t) (value : Z) : result Z :=
  match _exp self with
  | None => Err (TypeError "unsupported operand type(s) for **")
  | Some exp =>
      let* n := py_pow value exp in
      let* d := py_pow (_range self) exp in
      let* reg := py_truediv n d in
      let reg := if _invert self then f_sub (f_of_Z 1) reg else reg in
      f_to_int (f_mul (f_of_Z 65535) reg)
  end.

Definition __init__ (pwm : PWM) (min max initial freq : Z) (curve : Curve)
    (invert : bool) : PWM * result t :=
  match curve_exp curve with
  | Err e => (pwm, Err e)
  | Ok exp =>
      let self := {| _min := min; _max := max; _range := max - min;
                     _vol := initial; _invert := invert; _exp := exp |} in
      let pwm := PWM_freq pwm freq in
      match u16value self min with
      | Err e => (pwm, Err e)
      | Ok duty => (PWM_duty_u16 pwm duty, Ok self)
      end
  end.

Definition with_vol (self : t) (v : Z) : t :=
  {| _min := _min self; _max := _max self; _range := _range self;
     _vol := v; _invert := _invert self; _exp := _exp self |}.

Definition no_get_signal : string :=
  "'NoneType' object has no attribute 'get_signal'".

(** [up] and [down] return the volume object and the PWM as they leave
    them, and the value or the exception. [opposite] defaults to [None],
    on which [get_signal] cannot be called; [levels] is what the pins
    read while the handler runs. *)
Definition up (levels : Pin -> bool) (self : t) (pwm : PWM)
    (opposite : option Button) : t * PWM * result Z :=
  let self := with_vol self (Z.min (_vol self + 1) (_max self)) in
  match opposite with
  | None => (self, pwm, Err (AttributeError no_get_signal))
  | Some btn =>
      let self := if get_signal levels btn then with_vol self (_min self)
                  else self in
      match u16value self (_vol self) with
      | Err e => (self, pwm, Err e)
      | Ok duty => (self, PWM_duty_u16 pwm duty, Ok (_vol self))
      end
  end.

Definition down (levels : Pin -> bool) (self : t) (pwm : PWM)
    (opposite : option Button) : t * PWM * result Z :=
  let self := with_vol self (Z.max (_vol self - 1) (_min self)) in
  match opposite with
  | None => (self, pwm, Err (AttributeError no_get_signal))
  | Some btn =>
      let self := if get_signal levels btn then with_vol self (_min self)
                  else self in
      match u16value self (_vol self) with
      | Err e => (self, pwm, Err e)
      | Ok duty => (self, PWM_duty_u16 pwm duty, Ok (_vol self))
      end
  end.

Definition get_value (self : t) : Z := _vol self.
End Volume.
Arguments t F : clear implicits.
Arguments Curve F : clear implicits.
End Volume.

(** Exact arithmetic on the rationals, to run the model on: powers take the
    integer part of the exponent. *)
Definition Q_pow (x y : Q) : Q := (x ^ Qfloor y)%Q.

Definition Q_to_int (q : Q) : result Z := Ok (Z.quot (Qnum q) (Z.pos (Qden q))).

#[export] Instance exact_arith : PyFloat Q := {|
  f_of_Q := fun q => q;
  f_pow := Q_pow;
  f_div := Qdiv;
  f_mul := Qmult;
  f_sub := Qminus;
  f_cmp0 := fun q => Some (q ?= 0)%Q;
  f_isinf := fun _ => false;
  f_to_int := Q_to_int;
  f_cmp0_zero := eq_refl;
  f_cmp0_C := eq_refl
|}.

(** ** Reading a KeyList entry by entry *)

(** The value of the first entry with key [k]: what the index scan of
    [_findkey] followed by the indexed read amounts to. *)
Fixpoint first_value {K V} `{EqDecision K} (l : list (K * V)) (k : K)
    : option V :=
  match l with
  | [] => None
  | (k', v) :: l' => if decide (k' = k) then Some v else first_value l' k
  end.

(** ** Worlds the program can be in *)

(** From the empty roster, by constructing buttons, serving interrupts,
    rebinding callbacks and resetting counters. *)
Inductive reachable : World -> Prop :=
| reach_empty : reachable empty_world
| reach_init w pin name invert bouncetime function args kwargs :
    reachable w ->
    reachable (Button_init w pin name invert bouncetime function args kwargs).1
| reach_handler w e :
    reachable w -> reachable (_handler w e)
| reach_set_function w self function args kwargs :
    reachable w -> reachable (set_function w self function args kwargs).1
| reach_reset_count w self :
    reachable w -> reachable (reset_count w self).

(** Every roster entry holds an allocated button of that very pin, and no
    pin is entered twice. *)
Definition roster_ok (w : World) : Prop :=
  NoDup (KeyList.keys (_kroster w)) /\
  forall p r, (p, r) ∈ _kroster w ->
    exists b, heap w !! r = Some b /\ _pin b = p.

(** Time does not run backwards: within an interrupt the second reading of
    the clock is not before the first, and an interrupt is over before the
    next one is served. *)
Definition clock_monotone (es : list Edge) : Prop :=
  Forall (fun e => e_now e <= e_now' e) es /\
  StronglySorted (fun e e' => e_now' e <= e_now e') es.

(** An interrupt on [pin] at time [t], with the button's signal reading
    pressed and the clock standing still while it is served. *)
Definition pressed_edge (pin : Pin) (invert : bool) (t : Z) : Edge :=
  {| e_pin := pin; e_now := t; e_levels := fun _ => negb invert; e_now' := t |}.

(** The curve selectors the constructor takes: a number, or one of the four
    letters. *)
Definition supported_curve {F} (curve : Volume.Curve F) : Prop :=
  match curve with
  | Volume.CInt _ | Volume.CFloat _ => True
  | Volume.CStr s =>
      s = "A"%string \/ s = "B"%string \/ s = "C"%string \/ s = "D"%string
  | Volume.CObj _ => False
  end.

(** An exponent that is a number other than zero: an int, or a float above
    zero, or a float below zero that is not minus infinity. (A NaN compares
    with nothing.) *)
Definition nonzero_exponent {F} `{PyFloat F} (e : exponent F) : Prop :=
  match e with
  | EInt n => n <> 0
  | EFloat y =>
      f_cmp0 y = Some Gt \/ (f_cmp0 y = Some Lt /\ f_isinf y = false)
  end.

(** ** The buttons of the script

    The module's own wiring: [btn0] on pin 11, the green pair on pins 12
    and 13, the yellow pair on pins 14 and 15, each of the yellow pair bound
    to a volume method with the other one as [opposite]. *)

Definition btn0 : ref := 0%nat.
Definition btnG_off : ref := 1%nat.
Definition btnG_on : ref := 2%nat.
Definition btnY_down : ref := 3%nat.
Definition btnY_up : ref := 4%nat.

(** [btn0] as its constructor leaves it. *)
Definition btn0_initial : Button :=
  {| _pin := 11%nat;
     _invert := true;
     _signal := {| sig_pin := 11%nat; sig_invert := true |};
     _name := "GPIO11";
     _time_ticks := 0;
     _dtime := 200;
     _count := 0;
     _function := Some "ledR_toggle.toggle"%string;
     _fargs := PNone;
     _fkwargs := None |}.

Definition script_world : World :=
  let w := empty_world in
  let w := (Button_init w 11%nat None true 200
              (Some "ledR_toggle.toggle"%string) PNone None).1 in
  let w := (Button_init w 12%nat (Some "G_off"%string) false 200
              (Some "ledG_switch.off"%string) PNone None).1 in
  let w := (Button_init w 13%nat (Some "G_on"%string) false 200
              (Some "ledG_switch.on"%string) PNone None).1 in
  let w := (Button_init w 14%nat (Some "Y_down"%string) true 200
              None PNone None).1 in
  let w := (Button_init w 15%nat (Some "Y_up"%string) true 200
              None PNone None).1 in
  let w := (set_function w btnY_down (Some "ledY_vol.down"%string) PNone
              (Some [("opposite"%string, PObj btnY_up)])).1 in
  (set_function w btnY_up (Some "ledY_vol.up"%string) (PTuple [])
     (Some [("opposite"%string, PObj btnY_down)])).1.

(** The script's volume, [Volume(PWM(ledY), min=0, max=10, curve='A')], on
    exact arithmetic, and the PWM before anything is written to it. *)
Definition pwm_unset : PWM := {| pwm_freq := None; pwm_duty := None |}.

Definition ledY_vol : Volume.t Q :=
  {| Volume._min := 0; Volume._max := 10; Volume._range := 10;
     Volume._vol := 0; Volume._invert := false;
     Volume._exp := Some (EInt 2) |}.

(** [btnY_down], as the script leaves it. *)
Definition btnY_down_bound : Button :=
  {| _pin := 14%nat;
     _invert := true;
     _signal := {| sig_pin := 14%nat; sig_invert := true |};
     _name := "Y_down";
     _time_ticks := 0;
     _dtime := 200;
     _count := 0;
     _function := Some "ledY_vol.down"%string;
     _fargs := PNone;
     _fkwargs := Some [("opposite"%string, PObj btnY_up)] |}.

(** ** class OnOff_Switch and class Toggle

    The device is an output (a [Pin] or a [Signal]); what is kept of it is
    the level it is at, which [on()], [off()] and [value(x)] write. *)

Module OnOff_Switch.

Record t := { _on_off : bool }.

(** The constructor stores the device and does not write to it. *)
Definition __init__ (device : bool) : t * bool :=
  ({| _on_off := false |}, device).

Definition on (self : t) (device : bool) (myself : option ref) : t * bool :=
  ({| _on_off := true |}, true).

Definition off (self : t) (device : bool) (myself : option ref) : t * bool :=
  ({| _on_off := false |}, false).

End OnOff_Switch.

Module Toggle.

Record t := { _on_off : bool }.

Definition __init__ (device : bool) : t * bool :=
  let self := {| _on_off := false |} in
  (self, _on_off self).

Definition no_get_name : string :=
  "'NoneType' object has no attribute 'get_name'".

(** [toggle] reads the name and the counter of [myself] for its message
    before it does anything else; [myself] defaults to [None]. *)
Definition toggle (self : t) (device : bool) (myself : option ref)
    : t * bool * result unit :=
  match myself with
  | None => (self, device, Err (AttributeError no_get_name))
  | Some _ =>
      let self := {| _on_off := if _on_off self then false else true |} in
      (self, _on_off self, Ok tt)
  end.

End Toggle.

(** ** Sequences of operations *)

(** What the program does to the buttons, one operation at a time. *)
Inductive Op :=
| ONew (pin : Pin) (name : option string) (invert : bool) (bouncetime : Z)
    (function : option callable) (args : pyval) (kwargs : option kwdict)
| OEdge (e : Edge)
| OSetFunction (self : ref) (function : option callable) (args : pyval)
    (kwargs : option kwdict)
| OResetCount (self : ref).

Definition apply_op (w : World) (op : Op) : World :=
  match op with
  | ONew pin name invert bouncetime function args kwargs =>
      (Button_init w pin name invert bouncetime function args kwargs).1
  | OEdge e => _handler w e
  | OSetFunction self function args kwargs =>
      (set_function w self function args kwargs).1
  | OResetCount self => reset_count w self
  end.

Definition apply_ops (w : World) (ops : list Op) : World :=
  foldl apply_op w ops.

(** The fields of a button that only its constructor writes. *)
Definition same_config (b b' : Button) : Prop :=
  _pin b' = _pin b /\ _invert b' = _invert b /\ _signal b' = _signal b /\
  _name b' = _name b /\ _dtime b' = _dtime b.

(** Two worlds that the debounce and ghost checks cannot tell apart: the
    same roster, and button by button the same signal, timestamp and
    debounce interval. Counters and callbacks may differ. *)
Definition same_debounce (w1 w2 : World) : Prop :=
  _kroster w1 = _kroster w2 /\
  Forall2 (fun b1 b2 => _signal b1 = _signal b2 /\
                        _time_ticks b1 = _time_ticks b2 /\
                        _dtime b1 = _dtime b2)
    (heap w1) (heap w2).

(** Two worlds that agree on the roster and on button [r]. *)
Definition agree_on (r : ref) (w1 w2 : World) : Prop :=
  _kroster w1 = _kroster w2 /\ heap w1 !! r = heap w2 !! r.

(** How many of the calls [cs] are calls of [f]. *)
Definition count_calls (f : callable) (cs : list Call) : nat :=
  length (filter (fun c => c_function c = f) cs).

(** A sequence of assignments to a KeyList, starting from the empty one. *)
Definition assign_all {K V} `{EqDecision K} (kvs : list (K * V))
    : list (K * V) :=
  foldl (fun l kv => KeyList.__setitem__ l kv.1 kv.2) KeyList.new kvs.

(** Presses of the two volume buttons: which handler runs, what the pins
    read meanwhile, and the opposite button it is given. *)
Inductive VolumePress :=
| PressUp (levels : Pin -> bool) (opposite : option Button)
| PressDown (levels : Pin -> bool) (opposite : option Button).

Definition volume_press {F} `{PyFloat F} (s : Volume.t F * PWM)
    (p : VolumePress) : Volume.t F * PWM :=
  match p with
  | PressUp levels opposite => (Volume.up levels s.1 s.2 opposite).1
  | PressDown levels opposite => (Volume.down levels s.1 s.2 opposite).1
  end.

(** Calls of [on] and [off], each with what it is given as [myself]. *)
Inductive SwitchCall :=
| CallOn (myself : option ref)
| CallOff (myself : option ref).

Definition switch_call (s : OnOff_Switch.t * bool) (c : SwitchCall)
    : OnOff_Switch.t * bool :=
  match c with
  | CallOn myself => OnOff_Switch.on s.1 s.2 myself
  | CallOff myself => OnOff_Switch.off s.1 s.2 myself
  end.

(** Calls of [toggle], one for each [myself] of the list. *)
Definition toggle_calls (s : Toggle.t * bool) (ms : list (option ref))
    : Toggle.t * bool :=
  foldl (fun s myself => (Toggle.toggle s.1 s.2 myself).1) s ms.

(** * Properties *)

(** ** The roster *)

Section KeyListFacts.
Context {K V : Type} `{EqDecision K}.
Implicit Types (l : list (K * V)) (k : K) (v : V).

Lemma _findkey_from_absent l k i :
  first_value l k = None -> KeyList._findkey_from l k i = -1.
Proof.
  revert i. induction l as [|[k' v] l IH]; intros i; simpl; [done|].
  destruct (decide (k' = k)); [done|]. intros Hn. by apply IH.
Qed.

Lemma _findkey_from_present l k v i :
  first_value l k = Some v ->
  exists n : nat,
    KeyList._findkey_from l k i = i + Z.of_nat n /\ l !! n = Some (k, v).
Proof.
  revert i. induction l as [|[k' v0] l IH]; intros i; simpl; [done|].
  destruct (decide (k' = k)) as [->|Hne].
  - intros [= ->]. exists 0%nat. split; [lia|done].
  - intros Hf. destruct (IH (i + 1) Hf) as (n & Hi & Hl).
    exists (S n). split; [lia|done].
Qed.

Lemma _findkey_present l k v :
  first_value l k = Some v ->
  exists n : nat,
    KeyList._findkey l k = Z.of_nat n /\
    (KeyList._findkey l k =? -1) = false /\
    Z.to_nat (KeyList._findkey l k) = n /\
    l !! n = Some (k, v).
Proof.
  intros Hf. unfold KeyList._findkey.
  destruct (_findkey_from_present l k v 0 Hf) as (n & -> & Hl).
  exists n. split; [lia|]. split; [apply Z.eqb_neq; lia|].
  split; [lia|done].
Qed.

Lemma _findkey_absent l k :
  first_value l k = None -> KeyList._findkey l k = -1.
Proof. apply _findkey_from_absent. Qed.

Lemma __getitem___first l k : KeyList.__getitem__ l k = first_value l k.
Proof.
  unfold KeyList.__getitem__; cbv zeta.
  destruct (first_value l k) as [v|] eqn:Hf.
  - destruct (_findkey_present l k v Hf) as (n & _ & -> & -> & Hl).
    simpl. by rewrite Hl.
  - by rewrite (_findkey_absent l k Hf).
Qed.

Lemma first_value_elem l k v : first_value l k = Some v -> (k, v) ∈ l.
Proof.
  induction l as [|[k' v0] l IH]; simpl; [done|].
  destruct (decide (k' = k)) as [->|Hne].
  - intros [= ->]. left.
  - intros Hf. right. by apply IH.
Qed.

Lemma first_value_absent l k :
  first_value l k = None -> k ∉ KeyList.keys l.
Proof.
  unfold KeyList.keys.
  induction l as [|[k' v0] l IH]; simpl; intros Hf Hin.
  - by apply elem_of_nil in Hin.
  - destruct (decide (k' = k)) as [->|Hne]; [done|].
    apply elem_of_cons in Hin as [->|Hin]; [done|]. by apply IH.
Qed.

Lemma elem_first_value l k v :
  NoDup (KeyList.keys l) -> (k, v) ∈ l -> first_value l k = Some v.
Proof.
  unfold KeyList.keys.
  induction l as [|[k' v0] l IH]; simpl; intros Hnd Hin.
  - by apply elem_of_nil in Hin.
  - apply NoDup_cons in Hnd as [Hk' Hnd].
    apply elem_of_cons in Hin as [[= -> ->]|Hin].
    + by rewrite decide_True.
    + destruct (decide (k' = k)) as [->|Hne]; [|by apply IH].
      exfalso. apply Hk'. apply list_elem_of_fmap. by exists (k, v).
Qed.

(** Assignment keeps the keys as they are, or adds the new one last. *)
Lemma __setitem___keys l k v :
  KeyList.keys (KeyList.__setitem__ l k v) =
  match first_value l k with
  | Some _ => KeyList.keys l
  | None => KeyList.keys l ++ [k]
  end.
Proof.
  unfold KeyList.__setitem__, KeyList.keys; cbv zeta.
  destruct (first_value l k) as [v0|] eqn:Hf.
  - destruct (_findkey_present l k v0 Hf) as (n & _ & -> & -> & Hl).
    simpl. rewrite list_fmap_insert. simpl.
    apply list_insert_id. by rewrite list_lookup_fmap, Hl.
  - rewrite (_findkey_absent l k Hf). simpl. by rewrite fmap_app.
Qed.

Lemma __setitem___NoDup l k v :
  NoDup (KeyList.keys l) -> NoDup (KeyList.keys (KeyList.__setitem__ l k v)).
Proof.
  intros Hnd. rewrite __setitem___keys.
  destruct (first_value l k) eqn:Hf; [done|].
  apply NoDup_app. split; [done|]. split; [|apply NoDup_singleton].
  intros x Hx ->%list_elem_of_singleton.
  by apply (first_value_absent l k Hf).
Qed.

Lemma __setitem___length_present l k v v0 :
  first_value l k = Some v0 ->
  length (KeyList.__setitem__ l k v) = length l.
Proof.
  intros Hf. unfold KeyList.__setitem__; cbv zeta.
  destruct (_findkey_present l k v0 Hf) as (n & _ & -> & -> & Hl).
  simpl. apply length_insert.
Qed.

Lemma __setitem___elem l k v k' v' :
  NoDup (KeyList.keys l) ->
  (k', v') ∈ KeyList.__setitem__ l k v <->
  (k' = k /\ v' = v) \/ (k' <> k /\ (k', v') ∈ l).
Proof.
  intros Hnd. unfold KeyList.__setitem__; cbv zeta.
  destruct (first_value l k) as [v0|] eqn:Hf.
  - destruct (_findkey_present l k v0 Hf) as (n & _ & -> & -> & Hl).
    simpl. pose proof (lookup_lt_Some _ _ _ Hl) as Hlt.
    rewrite !list_elem_of_lookup. split.
    + intros [j Hj]. destruct (decide (n = j)) as [<-|Hne].
      * rewrite list_lookup_insert_eq in Hj by done.
        injection Hj as <- <-. by left.
      * rewrite list_lookup_insert_ne in Hj by done.
        right. split; [|by exists j]. intros ->. apply Hne.
        apply (NoDup_lookup (KeyList.keys l) n j k); [done| |];
          unfold KeyList.keys; rewrite list_lookup_fmap.
        -- by rewrite Hl.
        -- by rewrite Hj.
    + intros [[-> ->]|[Hne [j Hj]]].
      * exists n. by rewrite list_lookup_insert_eq.
      * exists j. rewrite list_lookup_insert_ne; [done|].
        intros ->. rewrite Hl in Hj. congruence.
  - rewrite (_findkey_absent l k Hf). simpl.
    rewrite elem_of_app, list_elem_of_singleton. split.
    + intros [Hin|[= -> ->]]; [|by left].
      right. split; [|done]. intros ->.
      apply (first_value_absent l k Hf).
      apply list_elem_of_fmap. by exists (k, v').
    + intros [[-> ->]|[_ Hin]]; [by right|by left].
Qed.

Lemma __getitem_____setitem__ l k v :
  NoDup (KeyList.keys l) ->
  KeyList.__getitem__ (KeyList.__setitem__ l k v) k = Some v.
Proof.
  intros Hnd. rewrite __getitem___first.
  apply elem_first_value; [by apply __setitem___NoDup|].
  apply __setitem___elem; [done|]. by left.
Qed.

Lemma __getitem_____setitem___ne l k v k' :
  NoDup (KeyList.keys l) -> k' <> k ->
  KeyList.__getitem__ (KeyList.__setitem__ l k v) k' =
  KeyList.__getitem__ l k'.
Proof.
  intros Hnd Hne. rewrite !__getitem___first.
  destruct (first_value l k') as [v'|] eqn:Hf.
  - apply elem_first_value; [by apply __setitem___NoDup|].
    apply __setitem___elem; [done|]. right. split; [done|].
    by apply first_value_elem.
  - destruct (first_value (KeyList.__setitem__ l k v) k') as [v'|] eqn:Hf';
      [|done].
    apply first_value_elem, __setitem___elem in Hf'; [|done].
    destruct Hf' as [[-> _]|[_ Hin]]; [done|].
    apply elem_first_value in Hin; [|done]. congruence.
Qed.
End KeyListFacts.

(** ** The handler, case by case *)

Lemma ticks_diff_small t1 t2 :
  - TICKS_HALF <= t1 - t2 < TICKS_HALF -> ticks_diff t1 t2 = t1 - t2.
Proof.
  unfold ticks_diff, TICKS_HALF, TICKS_PERIOD. intros Hr.
  change (2 ^ 30 / 2) with 536870912 in *. change (2 ^ 30) with 1073741824.
  rewrite Z.mod_small; lia.
Qed.

Lemma ticks_ms_small t : 0 <= t < TICKS_PERIOD -> ticks_ms t = t.
Proof. intros Ht. unfold ticks_ms. by apply Z.mod_small. Qed.

(** Only the readings count, not the times they were taken at. *)
Lemma ticks_diff_ticks_ms t1 t2 :
  ticks_diff (ticks_ms t1) (ticks_ms t2) = ticks_diff t1 t2.
Proof.
  unfold ticks_diff, ticks_ms. f_equal.
  rewrite (Z.mod_eq t1 TICKS_PERIOD), (Z.mod_eq t2 TICKS_PERIOD) by done.
  replace (t1 - TICKS_PERIOD * (t1 / TICKS_PERIOD)
           - (t2 - TICKS_PERIOD * (t2 / TICKS_PERIOD)) + TICKS_HALF)
    with (t1 - t2 + TICKS_HALF
          + (t2 / TICKS_PERIOD - t1 / TICKS_PERIOD) * TICKS_PERIOD) by lia.
  by rewrite Z.mod_add.
Qed.

(** A signed difference of at least [d], for a [d] within half the period,
    means that at least [d] ms went by. *)
Lemma ticks_diff_elapsed d t1 t2 :
  t2 <= t1 -> d <= TICKS_HALF -> d <= ticks_diff t1 t2 -> d <= t1 - t2.
Proof.
  intros Hle Hd Hdiff.
  destruct (Z.lt_ge_cases (t1 - t2) TICKS_HALF) as [Hlt|Hge]; [|lia].
  rewrite ticks_diff_small in Hdiff; [done|].
  assert (0 < TICKS_HALF) by done. lia.
Qed.

Lemma _handler_unresolved w e :
  _get_myself w (e_pin e) = None -> _handler w e = w.
Proof. unfold _handler. by intros ->. Qed.

Lemma _handler_debounced w e r b :
  _get_myself w (e_pin e) = Some r -> heap w !! r = Some b ->
  ticks_diff (ticks_ms (e_now e)) (_time_ticks b) < _dtime b ->
  _handler w e = w.
Proof.
  unfold _handler. intros -> -> Hlt.
  by rewrite (proj2 (Z.ltb_lt _ _) Hlt).
Qed.

Lemma _handler_ghost w e r b :
  _get_myself w (e_pin e) = Some r -> heap w !! r = Some b ->
  Signal_value (e_levels e) (_signal b) = false ->
  _handler w e = w.
Proof.
  unfold _handler. intros -> -> ->. simpl.
  by destruct (_ <? _).
Qed.

Lemma _handler_fires w e r b :
  _get_myself w (e_pin e) = Some r -> heap w !! r = Some b ->
  _dtime b <= ticks_diff (ticks_ms (e_now e)) (_time_ticks b) ->
  Signal_value (e_levels e) (_signal b) = true ->
  _handler w e =
  {| heap := <[r := with_time_ticks (with_count b (_count b + 1))
        (ticks_ms (e_now' e))]>
               (heap w);
     _kroster := _kroster w;
     irq := irq w;
     calls := calls w ++
              match _function b with
              | Some f => [_do_function r f (_fargs b) (_fkwargs b)]
              | None => []
              end |}.
Proof.
  unfold _handler. intros -> -> Hge ->. simpl.
  rewrite (proj2 (Z.ltb_ge _ _) Hge).
  destruct (_function b); unfold with_button, with_call; simpl;
    rewrite list_insert_insert_eq, ?app_nil_r; done.
Qed.

Lemma _handler_kroster w e : _kroster (_handler w e) = _kroster w.
Proof.
  unfold _handler.
  destruct (_get_myself w (e_pin e)) as [r|]; [|done].
  destruct (heap w !! r) as [b|]; [|done].
  destruct (_ <? _); [done|]. destruct (negb _); [done|].
  by destruct (_function _).
Qed.

(** What one interrupt does to any one button: nothing, or the accepted
    press. *)
Lemma _handler_button w e r b :
  heap w !! r = Some b ->
  heap (_handler w e) !! r = Some b \/
  (_dtime b <= ticks_diff (ticks_ms (e_now e)) (_time_ticks b) /\
   Signal_value (e_levels e) (_signal b) = true /\
   heap (_handler w e) !! r =
     Some (with_time_ticks (with_count b (_count b + 1))
        (ticks_ms (e_now' e)))).
Proof.
  intros Hb.
  destruct (_get_myself w (e_pin e)) as [r'|] eqn:Hr;
    [|left; by rewrite _handler_unresolved].
  destruct (heap w !! r') as [b'|] eqn:Hb';
    [|left; unfold _handler; by rewrite Hr, Hb'].
  destruct (Z.lt_ge_cases (ticks_diff (ticks_ms (e_now e)) (_time_ticks b'))
              (_dtime b')) as [Hlt|Hge];
    [left; by rewrite (_handler_debounced w e r' b')|].
  destruct (Signal_value (e_levels e) (_signal b')) eqn:Hs;
    [|left; by rewrite (_handler_ghost w e r' b')].
  rewrite (_handler_fires w e r' b') by done. simpl.
  destruct (decide (r' = r)) as [->|Hne].
  - right. rewrite Hb in Hb'. injection Hb' as ->.
    repeat split; try done.
    apply list_lookup_insert_eq. by eapply lookup_lt_Some.
  - left. by rewrite list_lookup_insert_ne.
Qed.

Lemma _handler_count w e r b :
  heap w !! r = Some b ->
  (get_count (_handler w e) r =? get_count w r + 1) = false /\
    heap (_handler w e) !! r = Some b \/
  (get_count (_handler w e) r =? get_count w r + 1) = true /\
    _dtime b <= ticks_diff (ticks_ms (e_now e)) (_time_ticks b) /\
    Signal_value (e_levels e) (_signal b) = true /\
    heap (_handler w e) !! r =
      Some (with_time_ticks (with_count b (_count b + 1))
        (ticks_ms (e_now' e))).
Proof.
  intros Hb. unfold get_count.
  destruct (_handler_button w e r b Hb) as [H|(Hd & Hs & H)];
    rewrite H, Hb; simpl; [left|right].
  - split; [apply Z.eqb_neq; lia|done].
  - split; [apply Z.eqb_eq; lia|done].
Qed.

Lemma run_kroster w es : _kroster (run w es) = _kroster w.
Proof.
  revert w. induction es as [|e es IH]; intros w; simpl; [done|].
  by rewrite IH, _handler_kroster.
Qed.

Lemma run_app w es1 es2 : run w (es1 ++ es2) = run (run w es1) es2.
Proof.
  revert w. induction es1 as [|e es1 IH]; intros w; simpl; [done|apply IH].
Qed.

(** ** The roster stays consistent *)

Lemma Button_init_kroster w pin name invert bouncetime function args kwargs :
  _kroster (Button_init w pin name invert bouncetime function args kwargs).1 =
  KeyList.__setitem__ (_kroster w) pin (length (heap w)).
Proof. done. Qed.

Lemma Button_init_heap w pin name invert bouncetime function args kwargs :
  exists b,
    heap (Button_init w pin name invert bouncetime function args kwargs).1 =
      heap w ++ [b] /\
    _pin b = pin /\ _signal b = {| sig_pin := pin; sig_invert := invert |} /\
    _time_ticks b = 0 /\ _dtime b = bouncetime /\ _count b = 0 /\
    _function b = function /\ _fargs b = args /\ _fkwargs b = kwargs.
Proof. eexists. repeat split. Qed.

Lemma roster_ok_empty : roster_ok empty_world.
Proof.
  split; [constructor|]. intros p r Hin. by apply elem_of_nil in Hin.
Qed.

Lemma roster_ok_init w pin name invert bouncetime function args kwargs :
  roster_ok w ->
  roster_ok (Button_init w pin name invert bouncetime function args kwargs).1.
Proof.
  intros [Hnd Hok]. split.
  - rewrite Button_init_kroster. by apply __setitem___NoDup.
  - intros p r. rewrite Button_init_kroster.
    destruct (Button_init_heap w pin name invert bouncetime function args
                kwargs) as (b & -> & Hp & _).
    rewrite __setitem___elem by done. intros [[-> ->]|[_ Hin]].
    + exists b. split; [|done].
      rewrite lookup_app_r by done. by rewrite Nat.sub_diag.
    + destruct (Hok p r Hin) as (b0 & Hb0 & Hp0). exists b0.
      split; [|done]. by apply lookup_app_l_Some.
Qed.

Lemma roster_ok_handler w e : roster_ok w -> roster_ok (_handler w e).
Proof.
  intros [Hnd Hok]. split; rewrite _handler_kroster; [done|].
  intros p r Hin. destruct (Hok p r Hin) as (b & Hb & Hp).
  destruct (_handler_button w e r b Hb) as [H|(_ & _ & H)];
    rewrite H; eauto.
Qed.

Lemma roster_ok_with_button w r b b' :
  roster_ok w -> heap w !! r = Some b -> _pin b' = _pin b ->
  roster_ok (with_button w r b').
Proof.
  intros [Hnd Hok] Hb Hp. split; [done|]. simpl.
  intros p r' Hin. destruct (Hok p r' Hin) as (b0 & Hb0 & Hp0).
  destruct (decide (r = r')) as [<-|Hne].
  - exists b'. split; [|congruence].
    apply list_lookup_insert_eq. by eapply lookup_lt_Some.
  - exists b0. by rewrite list_lookup_insert_ne.
Qed.

Lemma roster_ok_set_function w self function args kwargs :
  roster_ok w -> roster_ok (set_function w self function args kwargs).1.
Proof.
  intros Hok. unfold set_function.
  destruct (_exist_myself w self); [|done].
  destruct (heap w !! self) as [b|] eqn:Hb; [|done].
  by eapply roster_ok_with_button.
Qed.

Lemma roster_ok_reset_count w self :
  roster_ok w -> roster_ok (reset_count w self).
Proof.
  intros Hok. unfold reset_count.
  destruct (heap w !! self) as [b|] eqn:Hb; [|done].
  by eapply roster_ok_with_button.
Qed.

Lemma reachable_roster_ok w : reachable w -> roster_ok w.
Proof.
  induction 1;
    auto using roster_ok_empty, roster_ok_init, roster_ok_handler,
      roster_ok_set_function, roster_ok_reset_count.
Qed.

(** A button is live exactly when its own pin resolves to it. *)
Lemma _exist_myself_resolves w r b :
  roster_ok w -> heap w !! r = Some b ->
  _exist_myself w r = true <-> _get_myself w (_pin b) = Some r.
Proof.
  intros [Hnd Hok] Hb. unfold _exist_myself, _get_myself, KeyList.values.
  rewrite bool_decide_eq_true, __getitem___first. split.
  - intros ([p r'] & -> & Hin)%list_elem_of_fmap. simpl in *.
    destruct (Hok p r' Hin) as (b' & Hb' & <-).
    rewrite Hb in Hb'. injection Hb' as <-. by apply elem_first_value.
  - intros Hf%first_value_elem. apply list_elem_of_fmap.
    by exists (_pin b, r).
Qed.

Lemma roster_value_allocated w r :
  roster_ok w -> r ∈ KeyList.values (_kroster w) -> (r < length (heap w))%nat.
Proof.
  intros [_ Hok] ([p r'] & -> & Hin)%list_elem_of_fmap.
  destruct (Hok p r' Hin) as (b & Hb & _). by eapply lookup_lt_Some.
Qed.

(** ** Debounce *)

Lemma accepted_by_cons r w e es :
  accepted_by r w (e :: es) =
  (if get_count (_handler w e) r =? get_count w r + 1 then [e] else [])
  ++ accepted_by r (_handler w e) es.
Proof. done. Qed.

(** The first press a button accepts comes at least the debounce interval
    after the timestamp the button holds. *)
Lemma accepted_by_first es : forall w r b e,
  heap w !! r = Some b ->
  accepted_by r w es !! 0%nat = Some e ->
  _dtime b <= ticks_diff (ticks_ms (e_now e)) (_time_ticks b).
Proof.
  induction es as [|e0 es IH]; intros w r b e Hb; [done|].
  rewrite accepted_by_cons.
  destruct (_handler_count w e0 r b Hb) as [[-> Hb']|(-> & Hd & _ & Hb')];
    simpl.
  - by apply IH.
  - by intros [= <-].
Qed.

Lemma accepted_by_spacing es : forall w r b i e1 e2,
  heap w !! r = Some b ->
  accepted_by r w es !! i = Some e1 ->
  accepted_by r w es !! S i = Some e2 ->
  _dtime b <= ticks_diff (ticks_ms (e_now e2)) (ticks_ms (e_now' e1)).
Proof.
  induction es as [|e0 es IH]; intros w r b i e1 e2 Hb; [done|].
  rewrite accepted_by_cons.
  destruct (_handler_count w e0 r b Hb) as [[-> Hb']|(-> & _ & _ & Hb')]; simpl.
  - by apply IH.
  - destruct i as [|i]; simpl.
    + intros [= <-] H2.
      by apply (accepted_by_first es _ r _ e2 Hb' H2).
    + intros H1 H2. by apply (IH _ r _ i e1 e2 Hb').
Qed.

Lemma accepted_by_elem es : forall r w e,
  e ∈ accepted_by r w es -> e ∈ es.
Proof.
  induction es as [|e0 es IH]; intros r w e; [done|].
  rewrite accepted_by_cons, elem_of_app. intros [Hin|Hin].
  - destruct (_ =? _); [|by apply elem_of_nil in Hin].
    apply list_elem_of_singleton in Hin as ->. left.
  - right. by eapply IH.
Qed.

Lemma clock_monotone_cons e es :
  clock_monotone (e :: es) ->
  e_now e <= e_now' e /\ Forall (fun e' => e_now' e <= e_now e') es /\
  clock_monotone es.
Proof.
  intros [[He Hes]%Forall_cons Hs%StronglySorted_cons].
  destruct Hs as [Hall Hs]. done.
Qed.

(** With time running forward, every press a button accepts comes at least
    the debounce interval after the time [t] its timestamp was taken at. *)
Lemma accepted_by_after es : forall w r b t e,
  heap w !! r = Some b ->
  _dtime b <= TICKS_HALF ->
  clock_monotone es ->
  _time_ticks b = ticks_ms t ->
  Forall (fun e' => t <= e_now e') es ->
  e ∈ accepted_by r w es ->
  _dtime b <= e_now e - t.
Proof.
  induction es as [|e0 es IH]; intros w r b t e Hb Hd Hmono Ht Hall.
  - intros Hin. by apply elem_of_nil in Hin.
  - apply clock_monotone_cons in Hmono as (He0 & Hafter & Hmono).
    apply Forall_cons in Hall as [Ht0 Hall].
    rewrite accepted_by_cons.
    destruct (_handler_count w e0 r b Hb) as [[-> Hb']|(-> & Hacc & _ & Hb')];
      simpl.
    + by apply (IH _ r b t e).
    + rewrite Ht, ticks_diff_ticks_ms in Hacc.
      apply ticks_diff_elapsed in Hacc; [|done|done].
      intros [->|Hin]%elem_of_cons; [done|].
      pose proof (IH _ r _ (e_now' e0) e Hb' Hd Hmono eq_refl Hafter Hin).
      simpl in *. lia.
Qed.

Lemma accepted_by_apart es : forall w r b i j e1 e2,
  heap w !! r = Some b ->
  _dtime b <= TICKS_HALF ->
  clock_monotone es ->
  (i < j)%nat ->
  accepted_by r w es !! i = Some e1 ->
  accepted_by r w es !! j = Some e2 ->
  _dtime b <= e_now e2 - e_now' e1.
Proof.
  induction es as [|e0 es IH]; intros w r b i j e1 e2 Hb Hd Hmono Hij; [done|].
  apply clock_monotone_cons in Hmono as (He0 & Hafter & Hmono).
  rewrite accepted_by_cons.
  destruct (_handler_count w e0 r b Hb) as [[-> Hb']|(-> & _ & _ & Hb')]; simpl.
  - by apply IH.
  - destruct j as [|j]; [lia|]. destruct i as [|i]; simpl.
    + intros [= <-] H2%list_elem_of_lookup_2.
      by apply (accepted_by_after es _ r _ (e_now' e0) e2 Hb').
    + apply (IH _ r _ i j e1 e2 Hb'); [done|done|lia].
Qed.

(** C1. An edge that comes less than the debounce interval (by
    [ticks_diff]) after the timestamp of the button it resolves to leaves the
    world as it is: no counter moves and no callback is called. Hence, in
    any sequence of interrupts, of two presses a button accepts one after the
    other, the later one arrived at least the debounce interval after the
    timestamp stored for the earlier one. And with time running forward and
    a debounce interval within half the clock period, any two presses that a
    button accepts are at least the debounce interval apart in time, however
    often the clock has wrapped around. *)
Theorem debounce_discards_and_spaces :
  (forall w e r b,
     _get_myself w (e_pin e) = Some r -> heap w !! r = Some b ->
     ticks_diff (ticks_ms (e_now e)) (_time_ticks b) < _dtime b ->
     _handler w e = w /\
     get_count (_handler w e) r = get_count w r /\
     calls (_handler w e) = calls w) /\
  (forall w es r b i e1 e2,
     heap w !! r = Some b ->
     accepted_by r w es !! i = Some e1 ->
     accepted_by r w es !! S i = Some e2 ->
     _dtime b <= ticks_diff (ticks_ms (e_now e2)) (ticks_ms (e_now' e1))) /\
  (forall w es r b i j e1 e2,
     heap w !! r = Some b ->
     _dtime b <= TICKS_HALF ->
     clock_monotone es ->
     (i < j)%nat ->
     accepted_by r w es !! i = Some e1 ->
     accepted_by r w es !! j = Some e2 ->
     _dtime b <= e_now e2 - e_now' e1 /\
     _dtime b <= e_now' e2 - e_now' e1).
Proof.
  split; [|split].
  - intros w e r b Hr Hb Hlt.
    by rewrite (_handler_debounced w e r b Hr Hb Hlt).
  - intros w es. apply accepted_by_spacing.
  - intros w es r b i j e1 e2 Hb Hd Hmono Hij H1 H2.
    pose proof (accepted_by_apart es w r b i j e1 e2 Hb Hd Hmono Hij H1 H2).
    split; [done|].
    assert (e_now e2 <= e_now' e2); [|lia].
    apply list_elem_of_lookup_2, accepted_by_elem in H2.
    destruct Hmono as [Hall _]. rewrite Forall_forall in Hall. by apply Hall.
Qed.

(** ** Ghost rejection *)

Lemma Signal_value_false levels s :
  Signal_value levels s = false <-> levels (sig_pin s) = sig_invert s.
Proof.
  unfold Signal_value. by destruct (levels (sig_pin s)), (sig_invert s).
Qed.

Lemma accepted_by_pressed es : forall w r b e,
  heap w !! r = Some b ->
  e ∈ accepted_by r w es ->
  Signal_value (e_levels e) (_signal b) = true.
Proof.
  induction es as [|e0 es IH]; intros w r b e Hb.
  - intros Hin. by apply elem_of_nil in Hin.
  - rewrite accepted_by_cons.
    destruct (_handler_count w e0 r b Hb) as [[-> Hb']|(-> & _ & Hs & Hb')];
      simpl.
    + by apply IH.
    + intros [->|Hin]%elem_of_cons; [done|].
      by apply (IH _ r _ e Hb').
Qed.

(** C2. An edge on which the signal of the resolved button does not read
    pressed (the pin reads high on an inverted button, low otherwise)
    leaves the world as it is, also when the debounce check lets it
    through: the counter keeps its value and no callback is called. No
    press that a button accepts in a sequence of interrupts was read as not
    pressed. *)
Theorem ghost_edge_discarded :
  (forall w e r b,
     _get_myself w (e_pin e) = Some r -> heap w !! r = Some b ->
     _dtime b <= ticks_diff (ticks_ms (e_now e)) (_time_ticks b) ->
     e_levels e (sig_pin (_signal b)) = sig_invert (_signal b) ->
     _handler w e = w /\
     get_count (_handler w e) r = get_count w r /\
     calls (_handler w e) = calls w) /\
  (forall w es r b e,
     heap w !! r = Some b ->
     e ∈ accepted_by r w es ->
     e_levels e (sig_pin (_signal b)) = negb (sig_invert (_signal b))).
Proof.
  split.
  - intros w e r b Hr Hb _ Hs%Signal_value_false.
    by rewrite (_handler_ghost w e r b Hr Hb Hs).
  - intros w es r b e Hb Hin.
    pose proof (accepted_by_pressed es w r b e Hb Hin) as Hs.
    unfold Signal_value in Hs.
    by destruct (e_levels e _), (sig_invert _).
Qed.

(** ** Replacing a button on its pin *)

Lemma _get_myself_exists w p r :
  _get_myself w p = Some r -> _exist_myself w r = true.
Proof.
  unfold _get_myself, _exist_myself, KeyList.values.
  rewrite __getitem___first. intros Hin%first_value_elem.
  apply bool_decide_eq_true, list_elem_of_fmap. by exists (p, r).
Qed.

Lemma _handler_other w e r :
  _get_myself w (e_pin e) <> Some r ->
  heap (_handler w e) !! r = heap w !! r.
Proof.
  intros Hne. unfold _handler.
  destruct (_get_myself w (e_pin e)) as [r'|]; [|done].
  destruct (heap w !! r') as [b'|]; [|done].
  destruct (_ <? _); [done|]. destruct (negb _); [done|].
  assert (r' <> r) by congruence.
  destruct (_function _); simpl; by rewrite !list_lookup_insert_ne.
Qed.

Lemma run_expired es : forall w r,
  _exist_myself w r = false ->
  heap (run w es) !! r = heap w !! r.
Proof.
  induction es as [|e es IH]; intros w r Hex; simpl; [done|].
  rewrite IH.
  - apply _handler_other. intros Hr. apply _get_myself_exists in Hr. congruence.
  - unfold _exist_myself. by rewrite _handler_kroster.
Qed.

Lemma _exist_myself_run w es r :
  _exist_myself (run w es) r = _exist_myself w r.
Proof. unfold _exist_myself. by rewrite run_kroster. Qed.

Lemma Button_init_supersedes w pin old name invert bouncetime function args
    kwargs :
  roster_ok w -> _get_myself w pin = Some old ->
  (old < length (heap w))%nat /\
  _exist_myself
    (Button_init w pin name invert bouncetime function args kwargs).1 old
  = false.
Proof.
  intros Hok Hold. pose proof Hok as [Hnd Hbtn].
  unfold _get_myself in Hold. rewrite __getitem___first in Hold.
  apply first_value_elem in Hold.
  destruct (Hbtn pin old Hold) as (b & Hb & Hp).
  split; [by eapply lookup_lt_Some|].
  unfold _exist_myself, KeyList.values. rewrite Button_init_kroster.
  apply bool_decide_eq_false.
  intros ([p r] & -> & Hin)%list_elem_of_fmap. simpl in *.
  apply __setitem___elem in Hin as [[-> ->]|[Hne Hin]]; [| |done].
  - apply lookup_lt_Some in Hb. lia.
  - destruct (Hbtn p r Hin) as (b' & Hb' & Hp'). congruence.
Qed.

(** C3. A second button constructed on a pin that resolves to a button
    replaces that entry of the roster: the roster keeps its length and its
    keys stay distinct; the old button no longer exists in it and the new
    one does; and after any further interrupts the pin still resolves to the
    new button, no pin resolves to the old one, and the old one's state is
    what it was. *)
Theorem second_button_replaces :
  forall w pin old name invert bouncetime function args kwargs,
    reachable w ->
    _get_myself w pin = Some old ->
    let w' :=
      (Button_init w pin name invert bouncetime function args kwargs).1 in
    let new :=
      (Button_init w pin name invert bouncetime function args kwargs).2 in
    NoDup (KeyList.keys (_kroster w')) /\
    length (_kroster w') = length (_kroster w) /\
    new <> old /\
    _exist_myself w' old = false /\
    _exist_myself w' new = true /\
    forall es,
      _get_myself (run w' es) pin = Some new /\
      (forall p, _get_myself (run w' es) p <> Some old) /\
      _exist_myself (run w' es) old = false /\
      heap (run w' es) !! old = heap w !! old.
Proof.
  intros w pin old name invert bouncetime function args kwargs
    Hok%reachable_roster_ok Hold w' new.
  pose proof Hok as [Hnd _].
  destruct (Button_init_supersedes w pin old name invert bouncetime function
              args kwargs Hok Hold) as [Hlt Hex].
  fold w' in Hex.
  assert (Hnew : _get_myself w' pin = Some new).
  { unfold _get_myself, w'. rewrite Button_init_kroster.
    by apply __getitem_____setitem__. }
  split; [|split; [|split; [|split; [|split]]]].
  - unfold w'. rewrite Button_init_kroster. by apply __setitem___NoDup.
  - unfold w'. rewrite Button_init_kroster.
    unfold _get_myself in Hold. rewrite __getitem___first in Hold.
    by eapply __setitem___length_present.
  - unfold new. simpl. lia.
  - done.
  - by eapply _get_myself_exists.
  - intros es. split; [|split; [|split]].
    + unfold _get_myself. rewrite run_kroster. apply Hnew.
    + intros p Hp. apply _get_myself_exists in Hp.
      rewrite _exist_myself_run in Hp.
      congruence.
    + by rewrite _exist_myself_run.
    + rewrite run_expired by done. unfold w'. simpl.
      by rewrite lookup_app_l.
Qed.

Lemma reachable_script_world : reachable script_world.
Proof. unfold script_world. repeat constructor. Qed.

(** C1, at the script's [btn0] (200 ms): after a press accepted at 1000 an
    edge at 1050 changes nothing, and of the edges at 1000, 1050 and 1250
    the two accepted ones are 250 apart. *)
Lemma debounce_discards_and_spaces_witness :
  (let w := _handler script_world (pressed_edge 11%nat true 1000) in
   _handler w (pressed_edge 11%nat true 1050) = w) /\
  200 <= ticks_diff 1250 1000 /\
  200 <= 1250 - 1000.
Proof.
  split; [|split].
  - refine (proj1 (proj1 debounce_discards_and_spaces _ _ btn0
                     (with_time_ticks (with_count btn0_initial 1) 1000)
                     _ _ _));
      [reflexivity | reflexivity | vm_compute; reflexivity].
  - refine (proj1 (proj2 debounce_discards_and_spaces) script_world
              [pressed_edge 11%nat true 1000; pressed_edge 11%nat true 1050;
               pressed_edge 11%nat true 1250]
              btn0 btn0_initial 0%nat
              (pressed_edge 11%nat true 1000) (pressed_edge 11%nat true 1250)
              _ _ _);
      reflexivity.
  - refine (proj1 (proj2 (proj2 debounce_discards_and_spaces) script_world
              [pressed_edge 11%nat true 1000; pressed_edge 11%nat true 1050;
               pressed_edge 11%nat true 1250]
              btn0 btn0_initial 0%nat 1%nat
              (pressed_edge 11%nat true 1000) (pressed_edge 11%nat true 1250)
              _ _ _ _ _ _));
      [reflexivity | vm_compute; discriminate
      | split; repeat constructor; simpl; lia
      | lia | reflexivity | reflexivity].
Defined.

(** C2, at the script's [btn0] (inverted): an edge at 1000 on which pin 11
    reads high changes nothing, and the press accepted at 1000 read low. *)
Lemma ghost_edge_discarded_witness :
  (let e := {| e_pin := 11%nat; e_now := 1000; e_levels := fun _ => true;
               e_now' := 1000 |} in
   _handler script_world e = script_world) /\
  e_levels (pressed_edge 11%nat true 1000) 11%nat = false.
Proof.
  split.
  - refine (proj1 (proj1 ghost_edge_discarded script_world _ btn0 btn0_initial
                     _ _ _ _));
      [reflexivity | reflexivity | vm_compute; discriminate | reflexivity].
  - refine (proj2 ghost_edge_discarded script_world
              [pressed_edge 11%nat true 1000] btn0 btn0_initial
              (pressed_edge 11%nat true 1000) _ _);
      [reflexivity | vm_compute; left].
Defined.

(** C3, in the script's world: a new button on pin 11 takes the place of
    [btn0]. *)
Lemma second_button_replaces_witness :
  let w' := (Button_init script_world 11%nat None true 100 None PNone None).1 in
  _exist_myself w' btn0 = false /\
  _get_myself (run w' [pressed_edge 11%nat true 1000]) 11%nat = Some 5%nat.
Proof.
  pose proof (second_button_replaces script_world 11%nat btn0 None true 100
                None PNone None reachable_script_world eq_refl) as H.
  cbv zeta in H. destruct H as (_ & _ & _ & Hold & _ & Hrun).
  split; [exact Hold|].
  exact (proj1 (Hrun [pressed_edge 11%nat true 1000])).
Defined.

(** ** The scenario at 0, 50 and 250 ms *)

(** C4, as stated, fails: the constructor stores 0 as the timestamp, so an
    edge at clock reading 0 is less than 200 ms after it. Of the edges at 0,
    50 and 250 on the fresh [btn0], only the last is accepted, and the
    counter ends at 1. *)
Lemma scenario_from_zero_counts_one :
  let w := (Button_init empty_world 11%nat None true 200
              (Some "ledR_toggle.toggle"%string) PNone None).1 in
  let es := [pressed_edge 11%nat true 0; pressed_edge 11%nat true 50;
             pressed_edge 11%nat true 250] in
  _handler w (pressed_edge 11%nat true 0) = w /\
  accepted_by 0%nat w es = [pressed_edge 11%nat true 250] /\
  get_count (run w es) 0%nat = 1 /\
  get_count (run w es) 0%nat <> 2.
Proof. repeat split. vm_compute. discriminate. Qed.

Lemma Button_init_resolves w pin name invert bouncetime function args kwargs :
  roster_ok w ->
  _get_myself (Button_init w pin name invert bouncetime function args kwargs).1
    pin = Some (length (heap w)).
Proof.
  intros [Hnd _]. unfold _get_myself. rewrite Button_init_kroster.
  by apply __getitem_____setitem__.
Qed.

Lemma Button_init_lookup w pin name invert bouncetime function args kwargs :
  heap (Button_init w pin name invert bouncetime function args kwargs).1
    !! length (heap w) =
  Some {| _pin := pin;
          _invert := invert;
          _signal := {| sig_pin := pin; sig_invert := invert |};
          _name := name_or_default name pin;
          _time_ticks := 0;
          _dtime := bouncetime;
          _count := 0;
          _function := function;
          _fargs := args;
          _fkwargs := kwargs |}.
Proof. simpl. rewrite lookup_app_r by done. by rewrite Nat.sub_diag. Qed.

(** An accepted press, seen from the button it resolves to. *)
Lemma _handler_fires_button w e r b :
  _get_myself w (e_pin e) = Some r -> heap w !! r = Some b ->
  _dtime b <= ticks_diff (ticks_ms (e_now e)) (_time_ticks b) ->
  Signal_value (e_levels e) (_signal b) = true ->
  _get_myself (_handler w e) (e_pin e) = Some r /\
  heap (_handler w e) !! r =
    Some (with_time_ticks (with_count b (_count b + 1))
        (ticks_ms (e_now' e))).
Proof.
  intros Hr Hb Hd Hs. split.
  - unfold _get_myself. by rewrite _handler_kroster.
  - rewrite (_handler_fires w e r b Hr Hb Hd Hs). simpl.
    apply list_lookup_insert_eq. by eapply lookup_lt_Some.
Qed.

Lemma pressed_edge_pressed pin invert t :
  Signal_value (e_levels (pressed_edge pin invert t))
    {| sig_pin := pin; sig_invert := invert |} = true.
Proof. unfold Signal_value. simpl. by destruct invert. Qed.

(** C4, amended. A button constructed with a debounce interval of 200 ms
    gets three edges, the signal reading pressed and the clock standing
    still within each: at [base], [base + 50] and [base + 250], where [base]
    is at least 200 and [base + 250] is below half the clock period. The
    first and the third are accepted, the second is not, and the counter
    ends at 2. *)
Theorem scenario_base_50_250 :
  forall w pin name invert function args kwargs base,
    reachable w ->
    200 <= base -> base + 250 < TICKS_HALF ->
    let w' := (Button_init w pin name invert 200 function args kwargs).1 in
    let r := (Button_init w pin name invert 200 function args kwargs).2 in
    let es := [pressed_edge pin invert base;
               pressed_edge pin invert (base + 50);
               pressed_edge pin invert (base + 250)] in
    accepted_by r w' es =
      [pressed_edge pin invert base; pressed_edge pin invert (base + 250)] /\
    get_count (run w' es) r = 2.
Proof.
  intros w pin name invert function args kwargs base Hok%reachable_roster_ok
    Hlo Hhi w' r es.
  assert (TICKS_HALF = 536870912) as HH by reflexivity.
  assert (TICKS_PERIOD = 1073741824) as HP by reflexivity.
  pose proof (Button_init_resolves w pin name invert 200 function args kwargs
                Hok) as Hr0.
  pose proof (Button_init_lookup w pin name invert 200 function args kwargs)
    as Hb0.
  fold w' in Hr0, Hb0. change (length (heap w)) with r in Hr0, Hb0.
  set (b0 := {| _pin := pin; _dtime := 200 |}) in Hb0.
  (* the edge at [base] *)
  destruct (_handler_fires_button w' (pressed_edge pin invert base) r b0)
    as [Hr1 Hb1]; [done|done| | |].
  { simpl. rewrite !ticks_ms_small, ticks_diff_small; lia. }
  { apply pressed_edge_pressed. }
  set (w1 := _handler w' (pressed_edge pin invert base)) in *.
  set (b1 := with_time_ticks _ _) in Hb1.
  (* the edge at [base + 50] *)
  assert (_handler w1 (pressed_edge pin invert (base + 50)) = w1) as H2.
  { apply (_handler_debounced _ _ r b1); [done|done|].
    simpl. rewrite !ticks_ms_small, ticks_diff_small; lia. }
  (* the edge at [base + 250] *)
  destruct (_handler_fires_button w1 (pressed_edge pin invert (base + 250)) r
              b1) as [Hr3 Hb3]; [done|done| | |].
  { simpl. rewrite !ticks_ms_small, ticks_diff_small; lia. }
  { apply pressed_edge_pressed. }
  unfold es. simpl. fold w1. rewrite H2.
  set (w3 := _handler w1 (pressed_edge pin invert (base + 250))) in *.
  unfold get_count. rewrite Hb0, Hb1, Hb3. simpl. done.
Qed.

(** C4, amended, on the first button of the script with the clock at
    1000. *)
Lemma scenario_base_50_250_witness :
  let w := (Button_init empty_world 11%nat None true 200
              (Some "ledR_toggle.toggle"%string) PNone None).1 in
  get_count
    (run w [pressed_edge 11%nat true 1000; pressed_edge 11%nat true 1050;
            pressed_edge 11%nat true 1250]) 0%nat = 2.
Proof.
  refine (proj2 (scenario_base_50_250 empty_world 11%nat None true
                   (Some "ledR_toggle.toggle"%string) PNone None 1000
                   reach_empty _ _));
    [vm_compute; discriminate | vm_compute; reflexivity].
Defined.

(** ** Callback dispatch *)

Lemma _do_function_tuple self f vs fkwargs :
  _do_function self f (PTuple vs) fkwargs =
  {| c_function := f; c_args := vs;
     c_kwargs := match fkwargs with
                 | Some d => d ++ myself_kw self
                 | None => myself_kw self
                 end |}.
Proof. by destruct fkwargs as [[|kv d]|]. Qed.

Lemma _do_function_none self f fkwargs :
  _do_function self f PNone fkwargs =
  {| c_function := f; c_args := [];
     c_kwargs := match fkwargs with
                 | Some d => d ++ myself_kw self
                 | None => myself_kw self
                 end |}.
Proof. by destruct fkwargs as [[|kv d]|]. Qed.

Lemma _do_function_myself_last self f fargs fkwargs :
  c_function (_do_function self f fargs fkwargs) = f /\
  last (c_kwargs (_do_function self f fargs fkwargs)) =
    Some ("myself"%string, PObj self).
Proof.
  unfold _do_function.
  destruct (is_not_None fargs), (truthy fkwargs); simpl; split; try done;
    apply last_snoc.
Qed.

(** C5. In each of the four binding shapes the call that the dispatcher
    makes passes the positional values of the bundle, then the keyword
    values of the bundle, then the button as [myself]; whatever the bundles
    are, the callback is the one called and [myself], the button, is the
    last keyword argument. When the handler accepts a press on a button
    with a callback bound, that one call, with the button the pin resolved
    to, is the only thing added to the calls. *)
Theorem dispatch_passes_bundles_and_myself :
  (forall self f vs d,
     _do_function self f PNone None =
       {| c_function := f; c_args := [];
          c_kwargs := [("myself"%string, PObj self)] |} /\
     _do_function self f (PTuple vs) None =
       {| c_function := f; c_args := vs;
          c_kwargs := [("myself"%string, PObj self)] |} /\
     _do_function self f PNone (Some d) =
       {| c_function := f; c_args := [];
          c_kwargs := d ++ [("myself"%string, PObj self)] |} /\
     _do_function self f (PTuple vs) (Some d) =
       {| c_function := f; c_args := vs;
          c_kwargs := d ++ [("myself"%string, PObj self)] |}) /\
  (forall self f fargs fkwargs,
     c_function (_do_function self f fargs fkwargs) = f /\
     last (c_kwargs (_do_function self f fargs fkwargs)) =
       Some ("myself"%string, PObj self)) /\
  (forall w e r b f,
     _get_myself w (e_pin e) = Some r -> heap w !! r = Some b ->
     _dtime b <= ticks_diff (ticks_ms (e_now e)) (_time_ticks b) ->
     Signal_value (e_levels e) (_signal b) = true ->
     _function b = Some f ->
     calls (_handler w e) =
       calls w ++ [_do_function r f (_fargs b) (_fkwargs b)]).
Proof.
  split; [|split].
  - intros self f vs d.
    rewrite !_do_function_tuple, !_do_function_none. done.
  - apply _do_function_myself_last.
  - intros w e r b f Hr Hb Hd Hs Hf.
    rewrite (_handler_fires w e r b Hr Hb Hd Hs). simpl. by rewrite Hf.
Qed.

(** C5, on the bundles [(5,)] and [{"x": 1}], and on the script's [btnY_up]
    pressed at 1000. *)
Lemma dispatch_passes_bundles_and_myself_witness :
  _do_function 7%nat "f" (PTuple [PInt 5]) (Some [("x"%string, PInt 1)]) =
    {| c_function := "f"; c_args := [PInt 5];
       c_kwargs := [("x"%string, PInt 1); ("myself"%string, PObj 7%nat)] |} /\
  calls (_handler script_world (pressed_edge 15%nat true 1000)) =
    [ {| c_function := "ledY_vol.up"; c_args := [];
         c_kwargs := [("opposite"%string, PObj btnY_down);
                      ("myself"%string, PObj btnY_up)] |} ].
Proof.
  split.
  - exact (proj2 (proj2 (proj2
             (proj1 dispatch_passes_bundles_and_myself 7%nat "f"%string
                [PInt 5] [("x"%string, PInt 1)])))).
  - refine (proj2 (proj2 dispatch_passes_bundles_and_myself) script_world
              (pressed_edge 15%nat true 1000) btnY_up
              {| _pin := 15%nat;
                 _invert := true;
                 _signal := {| sig_pin := 15%nat; sig_invert := true |};
                 _name := "Y_up";
                 _time_ticks := 0;
                 _dtime := 200;
                 _count := 0;
                 _function := Some "ledY_vol.up"%string;
                 _fargs := PTuple [];
                 _fkwargs := Some [("opposite"%string, PObj btnY_down)] |}
              "ledY_vol.up"%string _ _ _ _ _);
      [reflexivity | reflexivity | vm_compute; discriminate
      | reflexivity | reflexivity].
Defined.

(** C6, as stated, fails on sequences that are not tuples: a list of two
    values, and a string, each reach the callback as one positional
    argument. *)
Lemma list_bundle_is_wrapped :
  c_args (_do_function 0%nat "f" (PList [PInt 1; PInt 2]) None) =
    [PList [PInt 1; PInt 2]] /\
  c_args (_do_function 0%nat "f" (PList [PInt 1; PInt 2]) None) <>
    [PInt 1; PInt 2] /\
  c_args (_do_function 0%nat "f" (PStr "ab") None) = [PStr "ab"].
Proof. repeat split. discriminate. Qed.

(** C6, amended. A positional value that is given (not [None]) and is not a
    tuple is passed as the one positional argument, whatever else it is; a
    tuple is passed as the bundle itself. *)
Theorem non_tuple_is_one_argument :
  forall self f v fkwargs,
    (v <> PNone -> (forall vs, v <> PTuple vs) ->
     c_args (_do_function self f v fkwargs) = [v]) /\
    (forall vs, c_args (_do_function self f (PTuple vs) fkwargs) = vs).
Proof.
  intros self f v fkwargs. split.
  - intros Hnone Htuple.
    destruct v; try done; try (by destruct fkwargs as [[|kv d]|]).
    by destruct (Htuple vs).
  - intros vs. by rewrite _do_function_tuple.
Qed.

Lemma non_tuple_is_one_argument_witness :
  c_args (_do_function 0%nat "f" (PInt 5) None) = [PInt 5] /\
  c_args (_do_function 0%nat "f" (PTuple [PInt 5; PInt 6]) None) =
    [PInt 5; PInt 6].
Proof.
  split.
  - refine (proj1 (non_tuple_is_one_argument 0%nat "f"%string (PInt 5) None)
              _ _); [discriminate | intros vs; discriminate].
  - exact (proj2 (non_tuple_is_one_argument 0%nat "f"%string (PInt 5) None)
             [PInt 5; PInt 6]).
Defined.

(** ** Rebinding the callback *)

Lemma set_function_expired w self function args kwargs :
  _exist_myself w self = false ->
  set_function w self function args kwargs =
  (w, Err (AssertionError (expired_msg self))).
Proof. unfold set_function. by intros ->. Qed.

Lemma live_button_allocated w self :
  roster_ok w -> _exist_myself w self = true -> is_Some (heap w !! self).
Proof.
  intros Hok Hex%bool_decide_eq_true. apply lookup_lt_is_Some.
  by apply roster_value_allocated.
Qed.

(** C7. On a button that is not in the roster, [set_function] raises the
    assertion error that says the button is expired, and the world, with the
    button's callback and both bundles, is as before; a button superseded by
    a new one on its pin is such a button. On a button that is in the
    roster the call returns and the button's callback and both bundles are
    the new ones, its other fields as before. *)
Theorem set_function_live_only :
  (forall w self function args kwargs,
     _exist_myself w self = false ->
     set_function w self function args kwargs =
       (w, Err (AssertionError (expired_msg self)))) /\
  (forall w pin old name invert bouncetime f a k function args kwargs,
     reachable w -> _get_myself w pin = Some old ->
     let w' := (Button_init w pin name invert bouncetime f a k).1 in
     set_function w' old function args kwargs =
       (w', Err (AssertionError (expired_msg old)))) /\
  (forall w self function args kwargs,
     reachable w -> _exist_myself w self = true ->
     exists b w',
       heap w !! self = Some b /\
       set_function w self function args kwargs = (w', Ok tt) /\
       heap w' !! self = Some (with_function b function args kwargs) /\
       _function (with_function b function args kwargs) = function /\
       _fargs (with_function b function args kwargs) = args /\
       _fkwargs (with_function b function args kwargs) = kwargs /\
       _exist_myself w' self = true).
Proof.
  split; [|split].
  - apply set_function_expired.
  - intros w pin old name invert bouncetime f a k function args kwargs
      Hok%reachable_roster_ok Hold w'.
    apply set_function_expired.
    by apply Button_init_supersedes.
  - intros w self function args kwargs Hok%reachable_roster_ok Hex.
    destruct (live_button_allocated w self Hok Hex) as [b Hb].
    exists b, (with_button w self (with_function b function args kwargs)).
    split; [done|]. split; [|split; [|done]].
    + unfold set_function. by rewrite Hex, Hb.
    + simpl. apply list_lookup_insert_eq. by eapply lookup_lt_Some.
Qed.

(** C7, in the script's world: [btn0] once a new button took pin 11, and
    [btn0] while it is live. *)
Lemma set_function_live_only_witness :
  (let w' :=
     (Button_init script_world 11%nat None true 100 None PNone None).1 in
   set_function w' btn0 (Some "g"%string) PNone None =
     (w', Err (AssertionError (expired_msg btn0)))) /\
  (exists b w',
     heap script_world !! btn0 = Some b /\
     set_function script_world btn0 (Some "g"%string) (PInt 1) None =
       (w', Ok tt) /\
     heap w' !! btn0 = Some (with_function b (Some "g"%string) (PInt 1) None)).
Proof.
  split.
  - exact (proj1 (proj2 set_function_live_only) script_world 11%nat btn0 None
             true 100 None PNone None (Some "g"%string) PNone None
             reachable_script_world eq_refl).
  - destruct (proj2 (proj2 set_function_live_only) script_world btn0
                (Some "g"%string) (PInt 1) None reachable_script_world eq_refl)
      as (b & w' & Hb & Hset & Hnew & _).
    exists b, w'. auto.
Defined.

(** ** The volume *)

Section VolumeFacts.
Context {F : Type} `{PyFloat F}.
Implicit Types (self : Volume.t F) (pwm : PWM) (btn : Button).

Lemma up_vol levels self pwm btn :
  Volume._vol (Volume.up levels self pwm (Some btn)).1.1 =
  if get_signal levels btn then Volume._min self
  else Z.min (Volume._vol self + 1) (Volume._max self).
Proof.
  unfold Volume.up. cbv zeta.
  destruct (get_signal levels btn);
    destruct (Volume.u16value _ _); done.
Qed.

Lemma down_vol levels self pwm btn :
  Volume._vol (Volume.down levels self pwm (Some btn)).1.1 =
  if get_signal levels btn then Volume._min self
  else Z.max (Volume._vol self - 1) (Volume._min self).
Proof.
  unfold Volume.down. cbv zeta.
  destruct (get_signal levels btn);
    destruct (Volume.u16value _ _); done.
Qed.

Lemma up_returns levels self pwm btn v :
  (Volume.up levels self pwm (Some btn)).2 = Ok v ->
  v = Volume._vol (Volume.up levels self pwm (Some btn)).1.1.
Proof.
  unfold Volume.up. cbv zeta.
  destruct (get_signal levels btn);
    destruct (Volume.u16value _ _); simpl; congruence.
Qed.

Lemma down_returns levels self pwm btn v :
  (Volume.down levels self pwm (Some btn)).2 = Ok v ->
  v = Volume._vol (Volume.down levels self pwm (Some btn)).1.1.
Proof.
  unfold Volume.down. cbv zeta.
  destruct (get_signal levels btn);
    destruct (Volume.u16value _ _); simpl; congruence.
Qed.

(** C8. After [up] the value is [min(v + 1, max)], after [down] it is
    [max(v - 1, min)], unless the signal of the opposite button reads
    active while the handler runs: then it is [min]. This is the value
    the volume holds afterwards, and the value returned when the handler
    returns. So [up] at 5 on a volume from 0 to 10, the opposite button
    pressed, gives 0. *)
Theorem up_down_step_or_minimum :
  forall levels self pwm btn,
    (Volume._vol (Volume.up levels self pwm (Some btn)).1.1 =
       if get_signal levels btn then Volume._min self
       else Z.min (Volume._vol self + 1) (Volume._max self)) /\
    (Volume._vol (Volume.down levels self pwm (Some btn)).1.1 =
       if get_signal levels btn then Volume._min self
       else Z.max (Volume._vol self - 1) (Volume._min self)) /\
    (forall v, (Volume.up levels self pwm (Some btn)).2 = Ok v ->
               v = Volume._vol (Volume.up levels self pwm (Some btn)).1.1) /\
    (forall v, (Volume.down levels self pwm (Some btn)).2 = Ok v ->
               v = Volume._vol (Volume.down levels self pwm (Some btn)).1.1) /\
    (Volume._min self = 0 -> Volume._max self = 10 -> Volume._vol self = 5 ->
     get_signal levels btn = true ->
     Volume._vol (Volume.up levels self pwm (Some btn)).1.1 = 0 /\
     Volume._vol (Volume.up levels self pwm (Some btn)).1.1 <> 6).
Proof.
  intros levels self pwm btn.
  split; [apply up_vol|]. split; [apply down_vol|].
  split; [apply up_returns|]. split; [apply down_returns|].
  intros Hmin Hmax Hvol Hs. rewrite up_vol, Hs, Hmin. done.
Qed.

(** ** The constructor of the volume *)

Lemma curve_exp_unsupported (curve : Volume.Curve F) :
  ~ supported_curve curve ->
  Volume.curve_exp curve = Err (AssertionError Volume.curve_msg).
Proof.
  destruct curve as [z|f|s|v]; simpl; intros Hn; try done;
    try (by destruct Hn).
  rewrite bool_decide_eq_false_2; [done|].
  unfold Volume.curve_letters. rewrite !elem_of_cons, elem_of_nil.
  intros Hin. apply Hn. tauto.
Qed.

Lemma curve_exp_supported (curve : Volume.Curve F) :
  supported_curve curve ->
  exists e, Volume.curve_exp curve = Ok (Some e).
Proof.
  destruct curve as [z|f|s|v]; simpl; [eauto|eauto| |done].
  intros [->|[->|[->| ->]]]; eauto.
Qed.

(** C9. With a curve that is neither a number nor one of the letters A, B,
    C, D the constructor raises the assertion error on the argument, and
    the PWM is as it was: neither the frequency nor the duty cycle has
    been written. *)
Theorem unsupported_curve_rejected :
  forall pwm min max initial freq (curve : Volume.Curve F) invert,
    ~ supported_curve curve ->
    Volume.__init__ pwm min max initial freq curve invert =
      (pwm, Err (AssertionError Volume.curve_msg)).
Proof.
  intros pwm min max initial freq curve invert Hn.
  unfold Volume.__init__. by rewrite (curve_exp_unsupported curve Hn).
Qed.

Lemma py_pow_zero_base (e : exponent F) :
  nonzero_exponent e ->
  py_pow 0 e = Err ZeroDivisionError \/
  exists d, py_pow 0 e = Ok d /\ is_zero d = true.
Proof.
  destruct e as [n|y]; simpl.
  - intros Hn. destruct (Z.leb_spec 0 n); [|by left].
    right. eexists. split; [done|]. simpl.
    apply Z.eqb_eq, Z.pow_0_l. lia.
  - intros [->|[-> ->]]; [|by left].
    right. eexists. split; [done|]. simpl.
    unfold f_of_Z. change (inject_Z 0) with 0%Q. by rewrite f_cmp0_zero.
Qed.

Lemma py_pow_nonzero_base (b : Z) (e : exponent F) :
  b <> 0 -> exists n, py_pow b e = Ok n.
Proof.
  intros Hb%Z.eqb_neq. destruct e as [n|y]; simpl; rewrite Hb.
  - destruct (0 <=? n); eauto.
  - eauto.
Qed.

Lemma u16value_zero_range self value e :
  Volume._range self = 0 -> Volume._exp self = Some e ->
  nonzero_exponent e ->
  Volume.u16value self value = Err ZeroDivisionError.
Proof.
  intros Hr He Hn. unfold Volume.u16value. rewrite He, Hr.
  destruct (decide (value = 0)) as [->|Hv].
  - destruct (py_pow_zero_base e Hn) as [->|(d & -> & Hd)]; [done|].
    simpl. unfold py_truediv. by rewrite Hd.
  - destruct (py_pow_nonzero_base value e Hv) as [n ->]. simpl.
    destruct (py_pow_zero_base e Hn) as [->|(d & -> & Hd)]; [done|].
    simpl. unfold py_truediv. by rewrite Hd.
Qed.

Lemma letter_curve_nonzero s :
  s ∈ Volume.curve_letters ->
  exists e : exponent F,
    Volume.curve_exp (Volume.CStr s) = Ok (Some e) /\ nonzero_exponent e.
Proof.
  unfold Volume.curve_letters. rewrite !elem_of_cons, elem_of_nil.
  intros [->|[->|[->|[->|[]]]]]; eexists; (split; [reflexivity|]); simpl;
    try done.
  left. apply f_cmp0_C.
Qed.

(** C10. With [min] equal to [max] and a curve whose exponent is a number
    other than zero, the constructor writes the frequency and then raises
    a division by zero from the duty cycle it computes for [min]; the duty
    cycle is not written and no volume is returned. Each of the letters
    A, B, C, D is such a curve. *)
Theorem zero_range_divides_by_zero :
  (forall pwm m initial freq (curve : Volume.Curve F) invert e,
     Volume.curve_exp curve = Ok (Some e) ->
     nonzero_exponent e ->
     Volume.__init__ pwm m m initial freq curve invert =
       (PWM_freq pwm freq, Err ZeroDivisionError)) /\
  (forall s, s ∈ Volume.curve_letters ->
     exists e : exponent F,
       Volume.curve_exp (Volume.CStr s) = Ok (Some e) /\ nonzero_exponent e).
Proof.
  split; [|apply letter_curve_nonzero].
  intros pwm m initial freq curve invert e He Hn.
  unfold Volume.__init__. rewrite He.
  rewrite (u16value_zero_range _ m e); [done| |done|done].
  simpl. lia.
Qed.
End VolumeFacts.

(** The script's volume is what its constructor returns, the duty cycle of
    the minimum written. *)
Example ledY_vol_constructed :
  Volume.__init__ pwm_unset 0 10 0 120 (Volume.CStr "A") false =
  ({| pwm_freq := Some 120; pwm_duty := Some 0 |}, Ok ledY_vol).
Proof. reflexivity. Qed.

Example btnY_down_in_script :
  heap script_world !! btnY_down = Some btnY_down_bound.
Proof. reflexivity. Qed.

(** C8, on the script's volume at 5 with [btnY_down] held (pin 14 low). *)
Lemma up_down_step_or_minimum_witness :
  Volume._vol
    (Volume.up (fun _ => false) (Volume.with_vol ledY_vol 5) pwm_unset
       (Some btnY_down_bound)).1.1 = 0.
Proof.
  refine (proj1 (proj2 (proj2 (proj2 (proj2
            (up_down_step_or_minimum (fun _ => false)
               (Volume.with_vol ledY_vol 5) pwm_unset btnY_down_bound))))
            _ _ _ _));
    reflexivity.
Defined.

(** C9, on the letter E. *)
Lemma unsupported_curve_rejected_witness :
  Volume.__init__ pwm_unset 0 10 0 120 (Volume.CStr (F:=Q) "E") false =
  (pwm_unset, Err (AssertionError Volume.curve_msg)).
Proof.
  refine (unsupported_curve_rejected pwm_unset 0 10 0 120
            (Volume.CStr (F:=Q) "E") false _).
  intros [?|[?|[?|?]]]; discriminate.
Defined.

(** C10, on the curve C with both bounds at 3. *)
Lemma zero_range_divides_by_zero_witness :
  Volume.__init__ pwm_unset 3 3 3 120 (Volume.CStr (F:=Q) "C") false =
  ({| pwm_freq := Some 120; pwm_duty := None |}, Err ZeroDivisionError).
Proof.
  refine (proj1 zero_range_divides_by_zero pwm_unset 3 3 120
            (Volume.CStr (F:=Q) "C") false (EFloat 0.7%Q) _ _).
  - reflexivity.
  - left. reflexivity.
Defined.

(** ** The clock wrapping around *)

(** On [btn0]: a press 50 ms before the counter wraps is accepted; an edge
    100 ms later, after the wrap, is still within the debounce interval; the
    edge 200 ms after the accepted press is accepted. *)
Example debounce_across_wraparound :
  let w := run script_world [pressed_edge 11%nat true (TICKS_HALF - 1)] in
  let es := [pressed_edge 11%nat true (TICKS_PERIOD - 50);
             pressed_edge 11%nat true (TICKS_PERIOD + 50);
             pressed_edge 11%nat true (TICKS_PERIOD + 150)] in
  accepted_by btn0 w es =
    [pressed_edge 11%nat true (TICKS_PERIOD - 50);
     pressed_edge 11%nat true (TICKS_PERIOD + 150)] /\
  get_count (run w es) btn0 = 3.
Proof. split; reflexivity. Qed.

(** The signed difference goes below zero once half a period has gone by: a
    press that comes half a period after the stored timestamp is taken for
    one before it, and is discarded. *)
Example press_after_half_period_discarded :
  ticks_diff (ticks_ms TICKS_HALF) 0 = - TICKS_HALF /\
  _handler script_world (pressed_edge 11%nat true TICKS_HALF) = script_world.
Proof. split; reflexivity. Qed.

(** * More of the code *)

(** ** KeyList as a dictionary *)

Section KeyListMore.
Context {K V : Type} `{Countable K}.
Implicit Types (l : list (K * V)) (k : K) (v : V).

(** The scan stops at the first entry with the key. *)
Lemma _findkey_from_first l k v i :
  first_value l k = Some v ->
  exists n : nat,
    KeyList._findkey_from l k i = i + Z.of_nat n /\
    l !! n = Some (k, v) /\
    forall j kv, (j < n)%nat -> l !! j = Some kv -> kv.1 <> k.
Proof.
  revert i. induction l as [|[k' v0] l IH]; intros i; simpl; [done|].
  destruct (decide (k' = k)) as [->|Hne].
  - intros [= ->]. exists 0%nat. split; [lia|]. split; [done|]. lia.
  - intros Hf. destruct (IH (i + 1) Hf) as (n & Hi & Hl & Hfirst).
    exists (S n). split; [lia|]. split; [done|].
    intros [|j] kv Hj; simpl.
    + by intros [= <-].
    + apply Hfirst. lia.
Qed.

Lemma first_value_absent_iff l k :
  first_value l k = None <-> k ∉ KeyList.keys l.
Proof.
  split; [apply first_value_absent|].
  unfold KeyList.keys.
  induction l as [|[k' v0] l IH]; simpl; [done|].
  intros Hn. destruct (decide (k' = k)) as [->|Hne].
  - exfalso. apply Hn. left.
  - apply IH. intros Hin. apply Hn. by right.
Qed.

(** X1. [_findkey] returns -1 exactly when no entry has the key; otherwise
    it returns the index of the first entry with the key, which lies within
    the list. *)
Theorem _findkey_first_match :
  forall l k,
    (KeyList._findkey l k = -1 /\ k ∉ KeyList.keys l) \/
    (exists (n : nat) v,
       KeyList._findkey l k = Z.of_nat n /\
       (n < length l)%nat /\
       l !! n = Some (k, v) /\
       forall j kv, (j < n)%nat -> l !! j = Some kv -> kv.1 <> k).
Proof.
  intros l k. destruct (first_value l k) as [v|] eqn:Hf.
  - right. unfold KeyList._findkey.
    destruct (_findkey_from_first l k v 0 Hf) as (n & Hn & Hl & Hfirst).
    exists n, v. split; [lia|]. split; [by eapply lookup_lt_Some|]. done.
  - left. split; [by apply _findkey_absent|by apply first_value_absent_iff].
Qed.

Lemma first_value_list_to_map l k :
  first_value l k = (list_to_map l : gmap K V) !! k.
Proof.
  induction l as [|[k' v0] l IH]; simpl; [by rewrite lookup_empty|].
  destruct (decide (k' = k)) as [->|Hne].
  - by rewrite lookup_insert_eq.
  - by rewrite lookup_insert_ne.
Qed.

Lemma list_to_map_insert_first l k v : forall n v0,
  l !! n = Some (k, v0) ->
  (forall j kv, (j < n)%nat -> l !! j = Some kv -> kv.1 <> k) ->
  (list_to_map (<[n := (k, v)]> l) : gmap K V) = <[k := v]> (list_to_map l).
Proof.
  induction l as [|[k' v'] l IH]; intros n v0 Hl Hfirst; [done|].
  destruct n as [|n]; simpl in *.
  - injection Hl as -> ->. by rewrite insert_insert_eq.
  - assert (k' <> k) as Hne by (apply (Hfirst 0%nat (k', v')); [lia|done]).
    rewrite (IH n v0 Hl).
    + by apply insert_insert_ne.
    + intros j kv Hj Hlj. apply (Hfirst (S j) kv); [lia|done].
Qed.

Lemma list_to_map_snoc_absent l k v :
  first_value l k = None ->
  (list_to_map (l ++ [(k, v)]) : gmap K V) = <[k := v]> (list_to_map l).
Proof.
  induction l as [|[k' v'] l IH]; simpl; [done|].
  destruct (decide (k' = k)) as [->|Hne]; [done|].
  intros Hf. rewrite (IH Hf). by apply insert_insert_ne.
Qed.

Lemma __setitem___list_to_map l k v :
  (list_to_map (KeyList.__setitem__ l k v) : gmap K V) =
  <[k := v]> (list_to_map l).
Proof.
  unfold KeyList.__setitem__, KeyList._findkey; cbv zeta.
  destruct (first_value l k) as [v0|] eqn:Hf.
  - destruct (_findkey_from_first l k v0 0 Hf) as (n & -> & Hl & Hfirst).
    replace (0 + Z.of_nat n) with (Z.of_nat n) by lia.
    replace (Z.of_nat n =? -1) with false by (symmetry; apply Z.eqb_neq; lia).
    simpl. rewrite Nat2Z.id. by eapply list_to_map_insert_first.
  - rewrite (_findkey_from_absent l k 0 Hf). simpl.
    by apply list_to_map_snoc_absent.
Qed.

(** X2. A KeyList is a dictionary. Read as the finite map of its entries
    (the first entry of a key counting), the empty list is the empty map,
    [__getitem__] is the lookup, with [None] for a key that is not there,
    and [__setitem__] is the insertion. So a key reads back the value last
    assigned to it and an assignment leaves every other key as it reads. *)
Theorem KeyList_is_a_dictionary :
  (list_to_map (KeyList.new : list (K * V)) : gmap K V) = ∅ /\
  (forall l k,
     KeyList.__getitem__ l k = (list_to_map l : gmap K V) !! k) /\
  (forall l k v,
     (list_to_map (KeyList.__setitem__ l k v) : gmap K V) =
     <[k := v]> (list_to_map l)) /\
  (forall l k, KeyList.__getitem__ l k = None <-> k ∉ KeyList.keys l) /\
  (forall l k v,
     KeyList.__getitem__ (KeyList.__setitem__ l k v) k = Some v) /\
  (forall l k v k',
     k' <> k ->
     KeyList.__getitem__ (KeyList.__setitem__ l k v) k' =
     KeyList.__getitem__ l k').
Proof.
  split; [done|]. split; [|split; [|split; [|split]]].
  - intros l k. by rewrite __getitem___first, first_value_list_to_map.
  - apply __setitem___list_to_map.
  - intros l k. rewrite __getitem___first. apply first_value_absent_iff.
  - intros l k v.
    by rewrite __getitem___first, first_value_list_to_map,
      __setitem___list_to_map, lookup_insert_eq.
  - intros l k v k' Hne.
    rewrite !__getitem___first, !first_value_list_to_map,
      __setitem___list_to_map. by rewrite lookup_insert_ne.
Qed.
Lemma _findkey_from_unique l k : forall n v i,
  l !! n = Some (k, v) ->
  (forall j kv, (j < n)%nat -> l !! j = Some kv -> kv.1 <> k) ->
  KeyList._findkey_from l k i = i + Z.of_nat n.
Proof.
  induction l as [|[k' v'] l IH]; intros n v i Hl Hfirst; [done|].
  destruct n as [|n]; simpl in *.
  - injection Hl as -> ->. rewrite decide_True by done. lia.
  - assert (k' <> k) as Hne by (apply (Hfirst 0%nat (k', v')); [lia|done]).
    rewrite decide_False by done. rewrite (IH n v (i + 1) Hl); [lia|].
    intros j kv Hj Hlj. apply (Hfirst (S j) kv); [lia|done].
Qed.

Lemma __setitem___at l k v (n : nat) :
  KeyList._findkey l k = Z.of_nat n ->
  KeyList.__setitem__ l k v = <[n := (k, v)]> l.
Proof.
  intros Hn. unfold KeyList.__setitem__; cbv zeta. rewrite Hn.
  replace (Z.of_nat n =? -1) with false by (symmetry; apply Z.eqb_neq; lia).
  simpl. by rewrite Nat2Z.id.
Qed.

Lemma __setitem___absent l k v :
  first_value l k = None -> KeyList.__setitem__ l k v = l ++ [(k, v)].
Proof.
  intros Hf. unfold KeyList.__setitem__; cbv zeta.
  by rewrite (_findkey_absent l k Hf).
Qed.

Lemma __setitem___overwrite l k v1 v2 :
  KeyList.__setitem__ (KeyList.__setitem__ l k v1) k v2 =
  KeyList.__setitem__ l k v2.
Proof.
  destruct (first_value l k) as [v0|] eqn:Hf.
  - destruct (_findkey_from_first l k v0 0 Hf) as (n & Hn & Hl & Hfirst).
    assert (KeyList._findkey l k = Z.of_nat n) as Hn'
      by (unfold KeyList._findkey; lia).
    rewrite (__setitem___at l k v1 n Hn'), (__setitem___at l k v2 n Hn').
    rewrite (__setitem___at _ k v2 n).
    + by rewrite list_insert_insert_eq.
    + unfold KeyList._findkey.
      rewrite (_findkey_from_unique _ k n v1 0); [lia| |].
      * apply list_lookup_insert_eq. by eapply lookup_lt_Some.
      * intros j kv Hj. rewrite list_lookup_insert_ne by lia.
        by apply Hfirst.
  - rewrite (__setitem___absent l k v1 Hf), (__setitem___absent l k v2 Hf).
    rewrite (__setitem___at _ k v2 (length l)).
    + rewrite insert_app_r_alt by done. by rewrite Nat.sub_diag.
    + unfold KeyList._findkey.
      rewrite (_findkey_from_unique _ k (length l) v1 0); [lia| |].
      * rewrite lookup_app_r by done. by rewrite Nat.sub_diag.
      * intros j [k' v'] Hj. rewrite lookup_app_l by done. simpl.
        intros Hlj ->. apply (first_value_absent l k Hf).
        apply list_elem_of_fmap. exists (k, v'). split; [done|].
        by eapply list_elem_of_lookup_2.
Qed.

Lemma assign_all_snoc (kvs : list (K * V)) kv :
  assign_all (kvs ++ [kv]) = KeyList.__setitem__ (assign_all kvs) kv.1 kv.2.
Proof. unfold assign_all. by rewrite foldl_snoc. Qed.

(** X3. An assignment works in place. The keys keep their order: a key that
    is there keeps its position, a new key goes last. The entries of the
    other keys stay where they are. A list that is only ever assigned to has
    no key twice. Assigning twice to a key is assigning the second value. *)
Theorem __setitem___in_place :
  (forall l k v,
     KeyList.keys (KeyList.__setitem__ l k v) =
     if decide (k ∈ KeyList.keys l) then KeyList.keys l
     else KeyList.keys l ++ [k]) /\
  (forall l k v j kv,
     l !! j = Some kv -> kv.1 <> k ->
     KeyList.__setitem__ l k v !! j = Some kv) /\
  (forall kvs : list (K * V), NoDup (KeyList.keys (assign_all kvs))) /\
  (forall l k v1 v2,
     KeyList.__setitem__ (KeyList.__setitem__ l k v1) k v2 =
     KeyList.__setitem__ l k v2).
Proof.
  split; [|split; [|split]].
  - intros l k v. rewrite __setitem___keys.
    destruct (first_value l k) eqn:Hf.
    + rewrite decide_True; [done|].
      destruct (decide (k ∈ KeyList.keys l)) as [|Hn]; [done|].
      apply first_value_absent_iff in Hn. congruence.
    + rewrite decide_False; [done|]. by apply first_value_absent_iff.
  - intros l k v j kv Hl Hne.
    destruct (first_value l k) as [v0|] eqn:Hf.
    + destruct (_findkey_from_first l k v0 0 Hf) as (n & Hn & Hln & _).
      rewrite (__setitem___at l k v n) by (unfold KeyList._findkey; lia).
      rewrite list_lookup_insert_ne; [done|].
      intros ->. rewrite Hl in Hln. injection Hln as ->. done.
    + rewrite (__setitem___absent l k v Hf). by apply lookup_app_l_Some.
  - intros kvs. induction kvs as [|kv kvs IH] using rev_ind.
    + constructor.
    + rewrite assign_all_snoc. by apply __setitem___NoDup.
  - apply __setitem___overwrite.
Qed.
End KeyListMore.

(** ** The life of a button *)

Lemma same_config_refl b : same_config b b.
Proof. by repeat split. Qed.

Lemma same_config_trans b1 b2 b3 :
  same_config b1 b2 -> same_config b2 b3 -> same_config b1 b3.
Proof.
  intros (? & ? & ? & ? & ?) (? & ? & ? & ? & ?).
  repeat split; congruence.
Qed.

Lemma with_button_config w r b0 b1 r' b :
  heap w !! r = Some b0 -> same_config b0 b1 ->
  heap w !! r' = Some b ->
  exists b', heap (with_button w r b1) !! r' = Some b' /\ same_config b b'.
Proof.
  intros Hr Hc Hr'. simpl. destruct (decide (r = r')) as [<-|Hne].
  - exists b1. split.
    + apply list_lookup_insert_eq. by eapply lookup_lt_Some.
    + congruence.
  - exists b. split; [by rewrite list_lookup_insert_ne|].
    apply same_config_refl.
Qed.

(** No operation changes what the constructor stored in a button, and no
    button is ever taken off the heap. *)
Lemma apply_op_config w op r b :
  heap w !! r = Some b ->
  exists b', heap (apply_op w op) !! r = Some b' /\ same_config b b'.
Proof.
  intros Hb. destruct op as [pin name invert bt f a k|e|self f a k|self]; simpl.
  - exists b. split; [by apply lookup_app_l_Some|apply same_config_refl].
  - destruct (_handler_button w e r b Hb) as [H|(_ & _ & H)];
      eexists; (split; [exact H|]); by repeat split.
  - unfold set_function. destruct (_exist_myself w self);
      [|exists b; split; [done|apply same_config_refl]].
    destruct (heap w !! self) as [b0|] eqn:Hb0;
      [|exists b; split; [done|apply same_config_refl]].
    simpl. by eapply with_button_config.
  - unfold reset_count. destruct (heap w !! self) as [b0|] eqn:Hb0;
      [|exists b; split; [done|apply same_config_refl]].
    by eapply with_button_config.
Qed.

Lemma apply_op_roster_ok w op : roster_ok w -> roster_ok (apply_op w op).
Proof.
  intros Hok. destruct op.
  - by apply roster_ok_init.
  - by apply roster_ok_handler.
  - by apply roster_ok_set_function.
  - by apply roster_ok_reset_count.
Qed.

Lemma apply_ops_roster_ok ops : forall w,
  roster_ok w -> roster_ok (apply_ops w ops).
Proof.
  induction ops as [|op ops IH]; intros w Hok; [done|].
  apply IH. by apply apply_op_roster_ok.
Qed.

Lemma apply_op_reachable w op : reachable w -> reachable (apply_op w op).
Proof. intros Hw. destruct op; by constructor. Qed.

Lemma apply_ops_reachable ops : forall w,
  reachable w -> reachable (apply_ops w ops).
Proof.
  induction ops as [|op ops IH]; intros w Hw; [done|].
  apply IH. by apply apply_op_reachable.
Qed.

(** An operation other than the constructor leaves the roster and the
    armed interrupts as they are. *)
Lemma apply_op_quiet w op :
  match op with
  | ONew _ _ _ _ _ _ _ => True
  | _ => _kroster (apply_op w op) = _kroster w /\
         irq (apply_op w op) = irq w
  end.
Proof.
  destruct op as [pin name invert bt f a k|e|self f a k|self]; simpl;
    [done| | |].
  - split; [apply _handler_kroster|].
    unfold _handler.
    destruct (_get_myself w (e_pin e)) as [r|]; [|done].
    destruct (heap w !! r) as [b|]; [|done].
    destruct (_ <? _); [done|]. destruct (negb _); [done|].
    by destruct (_function _).
  - unfold set_function. destruct (_exist_myself w self); [|done].
    by destruct (heap w !! self).
  - unfold reset_count. by destruct (heap w !! self).
Qed.

(** X4. Whatever is done afterwards (buttons constructed, interrupts served,
    callbacks rebound, counters reset), a button stays on the heap and its
    pin, polarity, signal, name and debounce interval stay what its
    constructor made them. *)
Theorem configuration_is_kept :
  forall ops w r b,
    heap w !! r = Some b ->
    exists b',
      heap (apply_ops w ops) !! r = Some b' /\
      _pin b' = _pin b /\ _invert b' = _invert b /\ _signal b' = _signal b /\
      _name b' = _name b /\ _dtime b' = _dtime b.
Proof.
  induction ops as [|op ops IH]; intros w r b Hb.
  - exists b. by repeat split.
  - destruct (apply_op_config w op r b Hb) as (b1 & Hb1 & Hc1).
    destruct (IH _ r b1 Hb1) as (b' & Hb' & Hc').
    exists b'. split; [done|].
    by apply (same_config_trans b b1 b').
Qed.

Lemma roster_values_NoDup w :
  roster_ok w -> NoDup (KeyList.values (_kroster w)).
Proof.
  intros [Hnd Hok]. unfold KeyList.values, KeyList.keys in *.
  apply NoDup_fmap_2_strong; [|by eapply NoDup_fmap_1].
  intros [p1 r1] [p2 r2] H1 H2 Heq. simpl in Heq. subst r2.
  destruct (Hok p1 r1 H1) as (b1 & Hb1 & <-).
  destruct (Hok p2 r1 H2) as (b2 & Hb2 & <-). congruence.
Qed.

(** X5. In every world the program can reach, the roster holds no pin twice
    and no button twice, every entry holds an allocated button of that very
    pin, and a button exists in the roster exactly when its own pin resolves
    to it. *)
Theorem roster_pairs_pins_and_buttons :
  forall w,
    reachable w ->
    NoDup (KeyList.keys (_kroster w)) /\
    NoDup (KeyList.values (_kroster w)) /\
    (forall p r, _get_myself w p = Some r ->
       exists b, heap w !! r = Some b /\ _pin b = p) /\
    (forall r b, heap w !! r = Some b ->
       (_exist_myself w r = true <-> _get_myself w (_pin b) = Some r)).
Proof.
  intros w Hok%reachable_roster_ok. pose proof Hok as [Hnd Hbtn].
  split; [done|]. split; [by apply roster_values_NoDup|]. split.
  - intros p r Hr. apply Hbtn. apply first_value_elem.
    by rewrite <- __getitem___first.
  - intros r b Hb. by apply _exist_myself_resolves.
Qed.

Lemma apply_op_expired w op r :
  roster_ok w -> (r < length (heap w))%nat ->
  _exist_myself w r = false ->
  _exist_myself (apply_op w op) r = false.
Proof.
  intros [Hnd Hok] Hlt Hex.
  pose proof (apply_op_quiet w op) as Hq.
  destruct op as [pin name invert bt f a k|e|self f a k|self];
    [|unfold _exist_myself in *; destruct Hq as [Hq _]; by rewrite Hq..].
  cbn [apply_op]. unfold _exist_myself, KeyList.values in *.
  rewrite Button_init_kroster.
  apply bool_decide_eq_false. apply bool_decide_eq_false in Hex.
  intros ([p r'] & -> & Hin)%list_elem_of_fmap. simpl in *.
  apply __setitem___elem in Hin as [[-> ->]|[Hne Hin]]; [lia| |done].
  apply Hex. apply list_elem_of_fmap. by exists (p, r').
Qed.

Lemma apply_op_allocated w op r :
  (r < length (heap w))%nat -> (r < length (heap (apply_op w op)))%nat.
Proof.
  intros [b Hb]%lookup_lt_is_Some.
  destruct (apply_op_config w op r b Hb) as (b' & Hb' & _).
  by eapply lookup_lt_Some.
Qed.

(** X6. Expiry is for good. A button that is allocated and not in the roster
    is not in the roster after any further operations, and [set_function] on
    it raises the assertion error then as before. *)
Theorem expired_for_good :
  forall ops w r,
    reachable w ->
    (r < length (heap w))%nat ->
    _exist_myself w r = false ->
    _exist_myself (apply_ops w ops) r = false /\
    forall function args kwargs,
      set_function (apply_ops w ops) r function args kwargs =
      (apply_ops w ops, Err (AssertionError (expired_msg r))).
Proof.
  intros ops w r Hw Hlt Hex.
  assert (_exist_myself (apply_ops w ops) r = false) as Hex'.
  { apply reachable_roster_ok in Hw. revert w Hw Hlt Hex.
    induction ops as [|op ops IH]; intros w Hw Hlt Hex; [done|].
    apply IH.
    - by apply apply_op_roster_ok.
    - by apply apply_op_allocated.
    - by apply apply_op_expired. }
  split; [done|]. intros function args kwargs.
  by apply set_function_expired.
Qed.

Lemma _get_myself_allocated w p r :
  roster_ok w -> _get_myself w p = Some r ->
  exists b, heap w !! r = Some b /\ _pin b = p.
Proof.
  intros [_ Hok] Hr. apply Hok. apply first_value_elem.
  by rewrite <- __getitem___first.
Qed.

Lemma Button_init_other_pin w pin name invert bt f a k p :
  roster_ok w -> p <> pin ->
  _get_myself (Button_init w pin name invert bt f a k).1 p = _get_myself w p.
Proof.
  intros [Hnd _] Hne. unfold _get_myself. rewrite Button_init_kroster.
  by apply __getitem_____setitem___ne.
Qed.

Lemma apply_op_irq w op :
  roster_ok w ->
  (forall p r b, _get_myself w p = Some r -> heap w !! r = Some b ->
     irq w !! p = Some (if _invert b then IRQ_FALLING else IRQ_RISING)) ->
  forall p r b,
    _get_myself (apply_op w op) p = Some r ->
    heap (apply_op w op) !! r = Some b ->
    irq (apply_op w op) !! p =
      Some (if _invert b then IRQ_FALLING else IRQ_RISING).
Proof.
  intros Hok IH p r b Hr Hb.
  pose proof (apply_op_quiet w op) as Hq.
  destruct op as [pin name invert bt f a k|e|self f a k|self].
  - cbn [apply_op] in *. destruct (decide (p = pin)) as [->|Hne].
    + rewrite Button_init_resolves in Hr by done. injection Hr as <-.
      rewrite Button_init_lookup in Hb. injection Hb as <-. simpl.
      by rewrite lookup_insert_eq.
    + rewrite Button_init_other_pin in Hr by done.
      destruct (_get_myself_allocated w p r Hok Hr) as (b0 & Hb0 & _).
      simpl in Hb. rewrite (lookup_app_l_Some _ _ _ _ Hb0) in Hb.
      injection Hb as <-. simpl. rewrite lookup_insert_ne by done.
      by apply (IH p r).
  - destruct Hq as [Hk Hi]. unfold _get_myself in Hr. rewrite Hk in Hr.
    destruct (_get_myself_allocated w p r Hok Hr) as (b0 & Hb0 & _).
    destruct (apply_op_config w (OEdge e) r b0 Hb0)
      as (b' & Hb' & _ & Hinv & _).
    rewrite Hb in Hb'. injection Hb' as <-. rewrite Hi, Hinv.
    by apply (IH p r).
  - destruct Hq as [Hk Hi]. unfold _get_myself in Hr. rewrite Hk in Hr.
    destruct (_get_myself_allocated w p r Hok Hr) as (b0 & Hb0 & _).
    destruct (apply_op_config w (OSetFunction self f a k) r b0 Hb0)
      as (b' & Hb' & _ & Hinv & _).
    rewrite Hb in Hb'. injection Hb' as <-. rewrite Hi, Hinv.
    by apply (IH p r).
  - destruct Hq as [Hk Hi]. unfold _get_myself in Hr. rewrite Hk in Hr.
    destruct (_get_myself_allocated w p r Hok Hr) as (b0 & Hb0 & _).
    destruct (apply_op_config w (OResetCount self) r b0 Hb0)
      as (b' & Hb' & _ & Hinv & _).
    rewrite Hb in Hb'. injection Hb' as <-. rewrite Hi, Hinv.
    by apply (IH p r).
Qed.

Lemma reachable_irq w :
  reachable w ->
  forall p r b, _get_myself w p = Some r -> heap w !! r = Some b ->
    irq w !! p = Some (if _invert b then IRQ_FALLING else IRQ_RISING).
Proof.
  induction 1 as [|w pin name invert bt f a k Hw IH|w e Hw IH
                  |w self f a k Hw IH|w self Hw IH].
  - intros p r b Hr. done.
  - apply (apply_op_irq w (ONew pin name invert bt f a k));
      [by apply reachable_roster_ok|done].
  - apply (apply_op_irq w (OEdge e)); [by apply reachable_roster_ok|done].
  - apply (apply_op_irq w (OSetFunction self f a k));
      [by apply reachable_roster_ok|done].
  - apply (apply_op_irq w (OResetCount self));
      [by apply reachable_roster_ok|done].
Qed.

(** X7. In every world the program can reach, the interrupt of a pin that
    resolves to a button is armed on the edge of that button's polarity:
    the falling edge for an inverted button, the rising edge otherwise. *)
Theorem interrupt_edge_matches_polarity :
  forall w p r b,
    reachable w ->
    _get_myself w p = Some r -> heap w !! r = Some b ->
    irq w !! p = Some (if _invert b then IRQ_FALLING else IRQ_RISING) /\
    sig_invert (_signal b) = _invert b /\ sig_pin (_signal b) = p.
Proof.
  intros w p r b Hw Hr Hb. split; [by apply (reachable_irq w Hw p r)|].
  destruct (_get_myself_allocated w p r (reachable_roster_ok w Hw) Hr)
    as (b0 & Hb0 & Hp).
  rewrite Hb in Hb0. injection Hb0 as <-.
  clear Hr. revert r b Hb p Hp.
  induction Hw as [|w pin name invert bt f a k Hw IH|w e Hw IH
                   |w self f a k Hw IH|w self Hw IH]; intros r b Hb p Hp.
  - done.
  - simpl in Hb. destruct (decide (r < length (heap w))%nat) as [Hlt|Hge].
    + rewrite lookup_app_l in Hb by done. by apply (IH r).
    + apply lookup_lt_Some in Hb as Hlt'. rewrite length_app in Hlt'.
      simpl in Hlt'. assert (r = length (heap w)) as -> by lia.
      rewrite lookup_app_r, Nat.sub_diag in Hb by done.
      injection Hb as <-. simpl in *. by subst.
  - assert (is_Some (heap w !! r)) as [b0 Hb0].
    { apply lookup_lt_is_Some. apply lookup_lt_Some in Hb.
      destruct (apply_op_quiet w (OEdge e)) as [_ _].
      destruct (decide (r < length (heap w))%nat); [done|].
      exfalso. revert Hb. unfold _handler.
      destruct (_get_myself w (e_pin e)) as [r'|]; [|lia].
      destruct (heap w !! r') as [b'|]; [|lia].
      destruct (_ <? _); [lia|]. destruct (negb _); [lia|].
      destruct (_function _); simpl; rewrite !length_insert; lia. }
    destruct (apply_op_config w (OEdge e) r b0 Hb0)
      as (b' & Hb' & Hpin & Hinv & Hsig & _).
    cbn [apply_op] in Hb'. rewrite Hb in Hb'. injection Hb' as <-.
    rewrite Hsig, Hinv. apply (IH r b0 Hb0). congruence.
  - assert (is_Some (heap w !! r)) as [b0 Hb0].
    { apply lookup_lt_is_Some. apply lookup_lt_Some in Hb.
      revert Hb. unfold set_function.
      destruct (_exist_myself w self); [|done].
      destruct (heap w !! self); [|done].
      simpl. by rewrite length_insert. }
    destruct (apply_op_config w (OSetFunction self f a k) r b0 Hb0)
      as (b' & Hb' & Hpin & Hinv & Hsig & _).
    cbn [apply_op] in Hb'. rewrite Hb in Hb'. injection Hb' as <-.
    rewrite Hsig, Hinv. apply (IH r b0 Hb0). congruence.
  - assert (is_Some (heap w !! r)) as [b0 Hb0].
    { apply lookup_lt_is_Some. apply lookup_lt_Some in Hb.
      revert Hb. unfold reset_count.
      destruct (heap w !! self); [|done].
      simpl. by rewrite length_insert. }
    destruct (apply_op_config w (OResetCount self) r b0 Hb0)
      as (b' & Hb' & Hpin & Hinv & Hsig & _).
    cbn [apply_op] in Hb'. rewrite Hb in Hb'. injection Hb' as <-.
    rewrite Hsig, Hinv. apply (IH r b0 Hb0). congruence.
Qed.

(** X8. Constructing a button on a pin leaves the other pins alone: every
    other pin resolves as before, every button that was there is unchanged,
    the buttons of other pins are live exactly if they were, and no callback
    is called. The new button is the one its pin resolves to, it is live, and
    its counter and its timestamp start at 0. *)
Theorem constructor_leaves_other_pins :
  forall w pin name invert bouncetime function args kwargs,
    reachable w ->
    let w' :=
      (Button_init w pin name invert bouncetime function args kwargs).1 in
    let new :=
      (Button_init w pin name invert bouncetime function args kwargs).2 in
    (forall p, p <> pin -> _get_myself w' p = _get_myself w p) /\
    (forall r b, heap w !! r = Some b -> heap w' !! r = Some b) /\
    (forall r b, heap w !! r = Some b -> _pin b <> pin ->
       _exist_myself w' r = _exist_myself w r) /\
    calls w' = calls w /\
    _get_myself w' pin = Some new /\
    _exist_myself w' new = true /\
    get_count w' new = 0 /\
    (exists b, heap w' !! new = Some b /\ _time_ticks b = 0 /\
               _dtime b = bouncetime).
Proof.
  intros w pin name invert bouncetime function args kwargs Hw w' new.
  pose proof (reachable_roster_ok w Hw) as Hok.
  assert (roster_ok w') as Hok' by by apply roster_ok_init.
  assert (_get_myself w' pin = Some new) as Hnew
    by by apply Button_init_resolves.
  split; [|split; [|split; [|split; [done|split; [done|split; [|split]]]]]].
  - intros p Hne. by apply Button_init_other_pin.
  - intros r b Hb. by apply lookup_app_l_Some.
  - intros r b Hb Hne. apply Bool.eq_iff_eq_true.
    rewrite (_exist_myself_resolves w' r b Hok')
      by by apply lookup_app_l_Some.
    rewrite (_exist_myself_resolves w r b Hok Hb).
    unfold w'. by rewrite Button_init_other_pin.
  - by eapply _get_myself_exists.
  - unfold get_count. change new with (length (heap w)). unfold w'.
    by rewrite Button_init_lookup.
  - change new with (length (heap w)). unfold w'.
    eexists. split; [apply Button_init_lookup|]. done.
Qed.

(** ** Interrupts, one after the other *)

Lemma _handler_heap_length w e :
  length (heap (_handler w e)) = length (heap w).
Proof.
  unfold _handler.
  destruct (_get_myself w (e_pin e)) as [r|]; [|done].
  destruct (heap w !! r) as [b|]; [|done].
  destruct (_ <? _); [done|]. destruct (negb _); [done|].
  destruct (_function _); simpl; by rewrite !length_insert.
Qed.

(** One interrupt moves a counter by one or not at all. *)
Lemma get_count_step w e r :
  (get_count (_handler w e) r =? get_count w r + 1) = false /\
    get_count (_handler w e) r = get_count w r \/
  (get_count (_handler w e) r =? get_count w r + 1) = true /\
    get_count (_handler w e) r = get_count w r + 1.
Proof.
  destruct (heap w !! r) as [b|] eqn:Hb.
  - destruct (_handler_count w e r b Hb) as [[Ht Hb']|(Ht & _ & _ & Hb')];
      [left|right]; (split; [done|]); unfold get_count; by rewrite Hb', Hb.
  - left. unfold get_count.
    rewrite Hb, (lookup_ge_None_2 (heap (_handler w e)) r); [done|].
    rewrite _handler_heap_length. by apply lookup_ge_None.
Qed.

Lemma get_count_run es : forall w r,
  get_count (run w es) r =
  get_count w r + Z.of_nat (length (accepted_by r w es)).
Proof.
  induction es as [|e es IH]; intros w r; simpl; [lia|].
  rewrite IH, length_app.
  destruct (get_count_step w e r) as [[-> ->]|[-> ->]]; simpl; lia.
Qed.

Lemma accepted_by_length es : forall w r,
  (length (accepted_by r w es) <= length es)%nat.
Proof.
  induction es as [|e es IH]; intros w r; simpl; [lia|].
  rewrite length_app. specialize (IH (_handler w e) r).
  destruct (_ =? _); simpl; lia.
Qed.

(** X9. After any sequence of interrupts a counter has grown by the number
    of presses its button accepted in it: it never goes down, it grows by at
    most one for each interrupt, and the counter of a button that is not
    allocated stays 0. *)
Theorem counter_counts_accepted_presses :
  forall w es r,
    get_count (run w es) r =
      get_count w r + Z.of_nat (length (accepted_by r w es)) /\
    get_count w r <= get_count (run w es) r <=
      get_count w r + Z.of_nat (length es) /\
    (heap w !! r = None -> get_count (run w es) r = 0).
Proof.
  intros w es r. pose proof (get_count_run es w r) as Hrun.
  pose proof (accepted_by_length es w r) as Hlen.
  split; [done|]. split; [lia|].
  intros Hnone. rewrite Hrun.
  assert (accepted_by r w es = []) as ->; [|unfold get_count; by rewrite Hnone].
  clear Hrun Hlen. revert w Hnone.
  induction es as [|e es IH]; intros w Hnone; [done|].
  rewrite accepted_by_cons.
  assert (heap (_handler w e) !! r = None) as Hnone'.
  { apply lookup_ge_None. rewrite _handler_heap_length.
    by apply lookup_ge_None. }
  rewrite (IH _ Hnone'). unfold get_count. by rewrite Hnone, Hnone'.
Qed.

(** X10. An interrupt on a pin that resolves to no button is dropped: the
    world is as before. So interrupts change nothing as long as no button
    has been constructed, and a sequence of interrupts on pins without a
    button changes nothing. *)
Theorem interrupt_without_button_is_dropped :
  (forall w e, _get_myself w (e_pin e) = None -> _handler w e = w) /\
  (forall es, run empty_world es = empty_world) /\
  (forall w es,
     Forall (fun e => _get_myself w (e_pin e) = None) es -> run w es = w).
Proof.
  assert (forall w es,
            Forall (fun e => _get_myself w (e_pin e) = None) es ->
            run w es = w) as Hrun.
  { intros w es. induction 1 as [|e es He Hes IH]; [done|].
    simpl. by rewrite (_handler_unresolved w e He). }
  split; [apply _handler_unresolved|]. split; [|done].
  intros es. apply Hrun. by apply Forall_forall.
Qed.

(** ** Buttons do not disturb each other *)

Lemma agree_on_handler r w1 w2 e :
  agree_on r w1 w2 -> agree_on r (_handler w1 e) (_handler w2 e).
Proof.
  intros [Hk Hr]. split; [by rewrite !_handler_kroster|].
  destruct (decide (_get_myself w1 (e_pin e) = Some r)) as [H1|H1].
  - assert (_get_myself w2 (e_pin e) = Some r) as H2
      by (unfold _get_myself in *; by rewrite <- Hk).
    destruct (heap w1 !! r) as [b|] eqn:Hb.
    + symmetry in Hr.
      destruct (Z.lt_ge_cases (ticks_diff (ticks_ms (e_now e)) (_time_ticks b))
                  (_dtime b)) as [Hlt|Hge].
      { rewrite (_handler_debounced w1 e r b), (_handler_debounced w2 e r b);
          congruence. }
      destruct (Signal_value (e_levels e) (_signal b)) eqn:Hs.
      * destruct (_handler_fires_button w1 e r b) as [_ ->]; [done..|].
        by destruct (_handler_fires_button w2 e r b) as [_ ->].
      * rewrite (_handler_ghost w1 e r b), (_handler_ghost w2 e r b);
          congruence.
    + unfold _handler. rewrite H1, H2, Hb, <- Hr. congruence.
  - assert (_get_myself w2 (e_pin e) <> Some r) as H2
      by (unfold _get_myself in *; by rewrite <- Hk).
    by rewrite !_handler_other.
Qed.

Lemma agree_on_run r es : forall w1 w2,
  agree_on r w1 w2 -> agree_on r (run w1 es) (run w2 es).
Proof.
  induction es as [|e es IH]; intros w1 w2 Ha; [done|].
  simpl. by apply IH, agree_on_handler.
Qed.

Lemma agree_on_accepted_by r es : forall w1 w2,
  agree_on r w1 w2 -> accepted_by r w1 es = accepted_by r w2 es.
Proof.
  induction es as [|e es IH]; intros w1 w2 Ha; [done|].
  rewrite !accepted_by_cons.
  pose proof (agree_on_handler r w1 w2 e Ha) as Ha'.
  rewrite (IH _ _ Ha'). unfold get_count.
  destruct Ha as [_ ->]. by destruct Ha' as [_ ->].
Qed.

Lemma other_pin_does_not_resolve w r b p :
  roster_ok w -> heap w !! r = Some b -> p <> _pin b ->
  _get_myself w p <> Some r.
Proof.
  intros Hok Hb Hne Hr.
  destruct (_get_myself_allocated w p r Hok Hr) as (b' & Hb' & Hp).
  congruence.
Qed.

Lemma own_pin_edges es : forall w r b,
  roster_ok w -> heap w !! r = Some b ->
  agree_on r (run w es) (run w (filter (fun e => e_pin e = _pin b) es)) /\
  accepted_by r w es =
    accepted_by r w (filter (fun e => e_pin e = _pin b) es).
Proof.
  induction es as [|e es IH]; intros w r b Hok Hb; [done|].
  destruct (decide (e_pin e = _pin b)) as [He|He].
  - rewrite filter_cons_True by done. simpl.
    destruct (_handler_button w e r b Hb) as [Hb'|(_ & _ & Hb')];
      destruct (IH (_handler w e) r _ (roster_ok_handler w e Hok) Hb')
        as [Ha Hacc]; simpl in *; by rewrite Hacc.
  - rewrite filter_cons_False by done.
    pose proof (other_pin_does_not_resolve w r b (e_pin e) Hok Hb He) as Hne.
    assert (agree_on r (_handler w e) w) as Hagree.
    { split; [apply _handler_kroster|by apply _handler_other]. }
    destruct (IH w r b Hok Hb) as [Ha Hacc]. split.
    + simpl. destruct (agree_on_run r es _ _ Hagree) as [Hk1 Hh1].
      destruct Ha as [Hk2 Hh2]. split; congruence.
    + rewrite accepted_by_cons.
      rewrite (agree_on_accepted_by r es _ _ Hagree), <- Hacc.
      unfold get_count. destruct Hagree as [_ ->].
      replace (from_option _count 0 (heap w !! r)
               =? from_option _count 0 (heap w !! r) + 1) with false; [done|].
      symmetry. apply Z.eqb_neq. lia.
Qed.

(** X11. Buttons do not disturb each other. What the interrupts on other
    pins do makes no difference to a button: the presses it accepts in a
    sequence of interrupts, and the state the sequence leaves it in, are
    those of the interrupts on its own pin alone. *)
Theorem buttons_are_independent :
  forall w es r b,
    reachable w -> heap w !! r = Some b ->
    accepted_by r w es =
      accepted_by r w (filter (fun e => e_pin e = _pin b) es) /\
    heap (run w es) !! r =
      heap (run w (filter (fun e => e_pin e = _pin b) es)) !! r.
Proof.
  intros w es r b Hok%reachable_roster_ok Hb.
  destruct (own_pin_edges es w r b Hok Hb) as [[_ Hh] Hacc]. done.
Qed.

(** ** One call for each accepted press *)

Lemma count_calls_snoc f cs c :
  count_calls f (cs ++ [c]) =
  (count_calls f cs + if decide (c_function c = f) then 1 else 0)%nat.
Proof.
  unfold count_calls. rewrite filter_app, length_app. f_equal.
  destruct (decide (c_function c = f)).
  - by rewrite filter_cons_True.
  - by rewrite filter_cons_False.
Qed.

(** An interrupt leaves the world as it is, or it is an accepted press. *)
Lemma _handler_cases w e :
  _handler w e = w \/
  exists r b,
    _get_myself w (e_pin e) = Some r /\ heap w !! r = Some b /\
    _dtime b <= ticks_diff (ticks_ms (e_now e)) (_time_ticks b) /\
    Signal_value (e_levels e) (_signal b) = true /\
    _handler w e =
      {| heap := <[r := with_time_ticks (with_count b (_count b + 1))
                          (ticks_ms (e_now' e))]> (heap w);
         _kroster := _kroster w;
         irq := irq w;
         calls := calls w ++
                  match _function b with
                  | Some f => [_do_function r f (_fargs b) (_fkwargs b)]
                  | None => []
                  end |}.
Proof.
  destruct (_get_myself w (e_pin e)) as [r|] eqn:Hr;
    [|left; by apply _handler_unresolved].
  destruct (heap w !! r) as [b|] eqn:Hb;
    [|left; unfold _handler; by rewrite Hr, Hb].
  destruct (Z.lt_ge_cases (ticks_diff (ticks_ms (e_now e)) (_time_ticks b))
              (_dtime b)) as [Hlt|Hge];
    [left; by apply (_handler_debounced w e r b)|].
  destruct (Signal_value (e_levels e) (_signal b)) eqn:Hs;
    [|left; by apply (_handler_ghost w e r b)].
  right. exists r, b. repeat split; try done.
  by apply _handler_fires.
Qed.

Lemma Z_eqb_succ_false (z : Z) : (z =? z + 1) = false.
Proof. apply Z.eqb_neq. lia. Qed.

Lemma callback_step w e r b f :
  heap w !! r = Some b -> _function b = Some f ->
  (forall r' b', r' <> r -> heap w !! r' = Some b' -> _function b' <> Some f) ->
  count_calls f (calls (_handler w e)) =
    (count_calls f (calls w) +
     length (if (get_count (_handler w e) r =? get_count w r + 1)%Z
             then [e] else []))%nat /\
  exists b1,
    heap (_handler w e) !! r = Some b1 /\ _function b1 = Some f /\
    forall r' b', r' <> r -> heap (_handler w e) !! r' = Some b' ->
      _function b' <> Some f.
Proof.
  intros Hb Hf Hothers.
  destruct (_handler_cases w e) as [->|(r0 & b0 & Hr0 & Hb0 & _ & _ & ->)].
  - rewrite Z_eqb_succ_false. simpl. split; [lia|]. by exists b.
  - pose proof (lookup_lt_Some _ _ _ Hb0) as Hlt0.
    unfold get_count. simpl. destruct (decide (r0 = r)) as [->|Hne].
    + assert (b0 = b) as -> by congruence.
      rewrite list_lookup_insert_eq, Hb, Hf by done. simpl.
      rewrite Z.eqb_refl, count_calls_snoc.
      destruct (_do_function_myself_last r f (_fargs b) (_fkwargs b))
        as [-> _].
      rewrite decide_True by done. split; [done|].
      eexists. split; [done|]. split; [done|].
      intros r' b' Hne'. rewrite list_lookup_insert_ne by done.
      by apply Hothers.
    + rewrite list_lookup_insert_ne, Hb, Z_eqb_succ_false by done. simpl.
      split.
      * destruct (_function b0) as [f0|] eqn:Hf0; [|by rewrite app_nil_r].
        rewrite count_calls_snoc.
        destruct (_do_function_myself_last r0 f0 (_fargs b0) (_fkwargs b0))
          as [-> _].
        rewrite decide_False; [lia|]. intros ->.
        by apply (Hothers r0 b0).
      * exists b. split; [done|]. split; [done|].
        intros r' b' Hne'. destruct (decide (r0 = r')) as [<-|Hne''].
        -- rewrite list_lookup_insert_eq by done. intros [= <-]. simpl.
           by apply (Hothers r0 b0).
        -- rewrite list_lookup_insert_ne by done. by apply Hothers.
Qed.

Lemma callback_run es : forall w r b f,
  heap w !! r = Some b -> _function b = Some f ->
  (forall r' b', r' <> r -> heap w !! r' = Some b' -> _function b' <> Some f) ->
  count_calls f (calls (run w es)) =
    (count_calls f (calls w) + length (accepted_by r w es))%nat.
Proof.
  induction es as [|e es IH]; intros w r b f Hb Hf Hothers; simpl; [lia|].
  destruct (callback_step w e r b f Hb Hf Hothers)
    as (Hstep & b1 & Hb1 & Hf1 & Hothers1).
  rewrite (IH _ r b1 f Hb1 Hf1 Hothers1), Hstep, length_app. lia.
Qed.

(** X12. A callback is called once for each accepted press. For a button
    that has a callable bound which no other button has, the sequence of
    interrupts adds as many calls of it as the button accepts presses, which
    is what its counter grows by. *)
Theorem callback_once_per_accepted_press :
  forall w es r b f,
    heap w !! r = Some b -> _function b = Some f ->
    (forall r' b', r' <> r -> heap w !! r' = Some b' ->
       _function b' <> Some f) ->
    count_calls f (calls (run w es)) =
      (count_calls f (calls w) + length (accepted_by r w es))%nat /\
    Z.of_nat (count_calls f (calls (run w es))) -
      Z.of_nat (count_calls f (calls w)) =
    get_count (run w es) r - get_count w r.
Proof.
  intros w es r b f Hb Hf Hothers.
  pose proof (callback_run es w r b f Hb Hf Hothers) as Hc.
  split; [done|]. rewrite get_count_run, Hc. lia.
Qed.

(** ** Counters and callbacks do not matter to the debounce *)

Lemma same_debounce_lookup w1 w2 r :
  same_debounce w1 w2 ->
  (heap w1 !! r = None /\ heap w2 !! r = None) \/
  exists b1 b2,
    heap w1 !! r = Some b1 /\ heap w2 !! r = Some b2 /\
    _signal b1 = _signal b2 /\ _time_ticks b1 = _time_ticks b2 /\
    _dtime b1 = _dtime b2.
Proof.
  intros [_ Hh]. destruct (heap w1 !! r) as [b1|] eqn:H1.
  - right. destruct (Forall2_lookup_l _ _ _ _ _ Hh H1) as (b2 & H2 & Hr).
    by exists b1, b2.
  - left. split; [done|]. apply lookup_ge_None.
    rewrite <- (Forall2_length _ _ _ Hh). by apply lookup_ge_None.
Qed.

Lemma same_debounce_handler w1 w2 e :
  same_debounce w1 w2 ->
  same_debounce (_handler w1 e) (_handler w2 e) /\
  forall r,
    (get_count (_handler w1 e) r =? get_count w1 r + 1) =
    (get_count (_handler w2 e) r =? get_count w2 r + 1).
Proof.
  intros Hs. pose proof Hs as [Hk Hh].
  assert (_get_myself w2 (e_pin e) = _get_myself w1 (e_pin e)) as Hm
    by (unfold _get_myself; by rewrite Hk).
  destruct (_get_myself w1 (e_pin e)) as [r0|] eqn:Hr0.
  2: { rewrite !_handler_unresolved by done.
       split; [done|]. intros r. by rewrite !Z_eqb_succ_false. }
  destruct (same_debounce_lookup w1 w2 r0 Hs)
    as [[H1 H2]|(b1 & b2 & H1 & H2 & Hsig & Hstamp & Hd)].
  { unfold _handler. rewrite Hm, Hr0, H1, H2.
    split; [done|]. intros r. by rewrite !Z_eqb_succ_false. }
  destruct (Z.lt_ge_cases (ticks_diff (ticks_ms (e_now e)) (_time_ticks b1))
              (_dtime b1)) as [Hlt|Hge].
  { rewrite (_handler_debounced w1 e r0 b1), (_handler_debounced w2 e r0 b2);
      [|done|done|congruence|done|done|done].
    split; [done|]. intros r. by rewrite !Z_eqb_succ_false. }
  destruct (Signal_value (e_levels e) (_signal b1)) eqn:Hsv.
  2: { rewrite (_handler_ghost w1 e r0 b1), (_handler_ghost w2 e r0 b2);
         [|done|done|congruence|done|done|done].
       split; [done|]. intros r. by rewrite !Z_eqb_succ_false. }
  rewrite (_handler_fires w1 e r0 b1), (_handler_fires w2 e r0 b2);
    [|done|done|congruence|congruence|done|done|done|done].
  split.
  - split; [done|]. simpl. by apply Forall2_insert.
  - intros r. unfold get_count. simpl.
    pose proof (lookup_lt_Some _ _ _ H1). pose proof (lookup_lt_Some _ _ _ H2).
    destruct (decide (r0 = r)) as [<-|Hne].
    + rewrite !list_lookup_insert_eq, H1, H2 by done. simpl.
      by rewrite !Z.eqb_refl.
    + rewrite !list_lookup_insert_ne by done.
      by rewrite !Z_eqb_succ_false.
Qed.

Lemma same_debounce_accepted_by es : forall w1 w2 r,
  same_debounce w1 w2 -> accepted_by r w1 es = accepted_by r w2 es.
Proof.
  induction es as [|e es IH]; intros w1 w2 r Hs; [done|].
  rewrite !accepted_by_cons.
  destruct (same_debounce_handler w1 w2 e Hs) as [Hs' Hc].
  by rewrite (Hc r), (IH _ _ r Hs').
Qed.

Lemma same_debounce_refl w : same_debounce w w.
Proof. split; [done|]. by apply Forall_Forall2_diag, Forall_true. Qed.

Lemma same_debounce_with_button w r b b' :
  heap w !! r = Some b ->
  _signal b' = _signal b -> _time_ticks b' = _time_ticks b ->
  _dtime b' = _dtime b ->
  same_debounce (with_button w r b') w.
Proof.
  intros Hb Hs Ht Hd. split; [done|]. simpl.
  rewrite <- (list_insert_id (heap w) r b Hb) at 2.
  apply Forall2_insert; [|done].
  by apply Forall_Forall2_diag, Forall_true.
Qed.

Lemma same_debounce_reset_count w r : same_debounce (reset_count w r) w.
Proof.
  unfold reset_count. destruct (heap w !! r) as [b|] eqn:Hb;
    [|apply same_debounce_refl].
  by eapply same_debounce_with_button.
Qed.

Lemma same_debounce_set_function w r f a k :
  same_debounce (set_function w r f a k).1 w.
Proof.
  unfold set_function. destruct (_exist_myself w r);
    [|apply same_debounce_refl].
  destruct (heap w !! r) as [b|] eqn:Hb; [|apply same_debounce_refl].
  by eapply same_debounce_with_button.
Qed.

(** X13. Resetting a counter does nothing to the debounce: the presses that
    any button accepts afterwards are the same as without the reset, and the
    buttons are live as before. The counter that was reset reads 0, and
    after a sequence of interrupts it reads the number of presses accepted
    since. *)
Theorem reset_count_restarts_the_count :
  forall w r es,
    (forall r', accepted_by r' (reset_count w r) es = accepted_by r' w es) /\
    (forall r', _exist_myself (reset_count w r) r' = _exist_myself w r') /\
    (forall r', r' <> r ->
       get_count (reset_count w r) r' = get_count w r') /\
    get_count (reset_count w r) r = 0 /\
    get_count (run (reset_count w r) es) r =
      Z.of_nat (length (accepted_by r w es)).
Proof.
  intros w r es.
  assert (get_count (reset_count w r) r = 0) as H0.
  { unfold get_count, reset_count.
    destruct (heap w !! r) as [b|] eqn:Hb; [|by rewrite Hb].
    simpl. rewrite list_lookup_insert_eq; [done|].
    by eapply lookup_lt_Some. }
  split; [|split; [|split; [|split; [done|]]]].
  - intros r'. apply same_debounce_accepted_by, same_debounce_reset_count.
  - intros r'. unfold _exist_myself.
    destruct (apply_op_quiet w (OResetCount r)) as [Hk _].
    cbn [apply_op] in Hk. by rewrite Hk.
  - intros r' Hne. unfold get_count, reset_count.
    destruct (heap w !! r) as [b|]; [|done].
    simpl. by rewrite list_lookup_insert_ne.
  - rewrite get_count_run, H0.
    by rewrite (same_debounce_accepted_by es _ w r
                  (same_debounce_reset_count w r)).
Qed.

Lemma set_function_twice w r f1 a1 k1 f2 a2 k2 :
  set_function (set_function w r f1 a1 k1).1 r f2 a2 k2 =
  set_function w r f2 a2 k2.
Proof.
  unfold set_function at 2 3.
  destruct (_exist_myself w r) eqn:Hex;
    [|simpl; unfold set_function; by rewrite Hex].
  destruct (heap w !! r) as [b|] eqn:Hb;
    [|simpl; unfold set_function; by rewrite Hex, Hb].
  cbn [fst]. unfold set_function.
  replace (_exist_myself (with_button w r (with_function b f1 a1 k1)) r)
    with true by done.
  simpl. rewrite list_lookup_insert_eq by by eapply lookup_lt_Some.
  unfold with_button. simpl. by rewrite list_insert_insert_eq.
Qed.

(** X14. Rebinding the callback does nothing to the debounce or to the
    counters: the presses that any button accepts afterwards are the same.
    Of two bindings the second one stands. The next press that the button
    accepts calls the new callable with the new bundles, and after a binding
    of no callable (the default) it calls nothing and is counted. *)
Theorem set_function_rebinds_only :
  (forall w r f a k es r',
     accepted_by r' (set_function w r f a k).1 es = accepted_by r' w es /\
     get_count (set_function w r f a k).1 r' = get_count w r') /\
  (forall w r f1 a1 k1 f2 a2 k2,
     set_function (set_function w r f1 a1 k1).1 r f2 a2 k2 =
     set_function w r f2 a2 k2) /\
  (forall w r b f a k e,
     _exist_myself w r = true -> heap w !! r = Some b ->
     _get_myself w (e_pin e) = Some r ->
     _dtime b <= ticks_diff (ticks_ms (e_now e)) (_time_ticks b) ->
     Signal_value (e_levels e) (_signal b) = true ->
     let w' := (set_function w r f a k).1 in
     calls (_handler w' e) =
       calls w ++ match f with
                  | Some f => [_do_function r f a k]
                  | None => []
                  end /\
     get_count (_handler w' e) r = get_count w r + 1).
Proof.
  split; [|split; [apply set_function_twice|]].
  - intros w r f a k es r'. split.
    + apply same_debounce_accepted_by, same_debounce_set_function.
    + unfold get_count, set_function.
      destruct (_exist_myself w r); [|done].
      destruct (heap w !! r) as [b|] eqn:Hb; [|done].
      simpl. destruct (decide (r = r')) as [<-|Hne].
      * rewrite list_lookup_insert_eq by by eapply lookup_lt_Some.
        by rewrite Hb.
      * by rewrite list_lookup_insert_ne.
  - intros w r b f a k e Hex Hb Hr Hd Hs w'.
    pose proof (lookup_lt_Some _ _ _ Hb) as Hlt.
    assert (w' = with_button w r (with_function b f a k)) as ->
      by (unfold w', set_function; by rewrite Hex, Hb).
    rewrite (_handler_fires _ e r (with_function b f a k)); try done.
    + unfold get_count. simpl.
      rewrite list_lookup_insert_eq by by rewrite length_insert.
      by rewrite Hb.
    + simpl. by apply list_lookup_insert_eq.
Qed.

(** ** When a press is accepted *)

(** The signed difference is the elapsed time modulo the period, taken as
    negative from half the period on. *)
Lemma ticks_diff_mod t1 t2 :
  ticks_diff t1 t2 =
  if (t1 - t2) mod TICKS_PERIOD <? TICKS_HALF
  then (t1 - t2) mod TICKS_PERIOD
  else (t1 - t2) mod TICKS_PERIOD - TICKS_PERIOD.
Proof.
  unfold ticks_diff.
  assert (TICKS_PERIOD = 2 * TICKS_HALF) as HP by done.
  assert (0 < TICKS_HALF) as HH by done.
  pose proof (Z.mod_pos_bound (t1 - t2) TICKS_PERIOD ltac:(lia)) as Hm.
  rewrite <- (Zplus_mod_idemp_l (t1 - t2)).
  set (m := (t1 - t2) mod TICKS_PERIOD) in *.
  destruct (Z.ltb_spec m TICKS_HALF).
  - rewrite Z.mod_small; lia.
  - replace (m + TICKS_HALF) with (m - TICKS_HALF + 1 * TICKS_PERIOD) by lia.
    rewrite Z.mod_add by lia. rewrite Z.mod_small; lia.
Qed.

(** X15. When a press is accepted. For a button whose debounce interval is
    not negative and whose timestamp was read at time [t0], an interrupt on
    its pin at time [t] increments the counter exactly if the signal reads
    pressed and the elapsed time [t - t0], modulo the clock period, is at
    least the debounce interval and less than half the period. So a button
    left alone for half a period takes no press in the half that follows,
    and a new button, whose timestamp is 0, takes no press while the clock
    reads less than its debounce interval. *)
Theorem accepted_iff_elapsed_in_window :
  forall w e r b t0,
    _get_myself w (e_pin e) = Some r -> heap w !! r = Some b ->
    _time_ticks b = ticks_ms t0 -> 0 <= _dtime b ->
    (get_count (_handler w e) r = get_count w r + 1 <->
     Signal_value (e_levels e) (_signal b) = true /\
     _dtime b <= (e_now e - t0) mod TICKS_PERIOD < TICKS_HALF) /\
    (get_count (_handler w e) r = get_count w r + 1 \/ _handler w e = w).
Proof.
  intros w e r b t0 Hr Hb Ht Hd.
  assert (get_count w r = _count b) as Hc by (unfold get_count; by rewrite Hb).
  pose proof (ticks_diff_mod (e_now e) t0) as Hdiff.
  rewrite <- ticks_diff_ticks_ms, <- Ht in Hdiff.
  pose proof (Z.mod_pos_bound (e_now e - t0) TICKS_PERIOD ltac:(done)) as Hm.
  assert (TICKS_PERIOD = 2 * TICKS_HALF) as HP by done.
  destruct (Z.lt_ge_cases (ticks_diff (ticks_ms (e_now e)) (_time_ticks b))
              (_dtime b)) as [Hlt|Hge].
  { rewrite (_handler_debounced w e r b Hr Hb Hlt).
    split; [|by right]. split; [lia|]. intros [_ Hwin].
    destruct (Z.ltb_spec ((e_now e - t0) mod TICKS_PERIOD) TICKS_HALF); lia. }
  destruct (Signal_value (e_levels e) (_signal b)) eqn:Hs.
  2: { rewrite (_handler_ghost w e r b Hr Hb Hs).
       split; [|by right]. split; [lia|]. by intros [? _]. }
  destruct (_handler_fires_button w e r b Hr Hb Hge Hs) as [_ Hb'].
  assert (get_count (_handler w e) r = get_count w r + 1) as Hinc
    by (unfold get_count; by rewrite Hb', Hb).
  split; [|by left]. split; [|done]. intros _. split; [done|].
  destruct (Z.ltb_spec ((e_now e - t0) mod TICKS_PERIOD) TICKS_HALF); lia.
Qed.

(** ** The volume handlers *)

Section VolumeMore.
Context {F : Type} `{PyFloat F}.
Implicit Types (self : Volume.t F) (pwm : PWM) (btn : Button).

(** What [up] and [down] leave of the volume object: the object with a new
    value, whether they return or raise. *)
Lemma up_self levels self pwm opposite :
  exists v,
    (Volume.up levels self pwm opposite).1.1 = Volume.with_vol self v /\
    (v = Z.min (Volume._vol self + 1) (Volume._max self) \/
     v = Volume._min self).
Proof.
  unfold Volume.up; cbv zeta. destruct opposite as [btn|]; [|eauto].
  destruct (get_signal levels btn); destruct (Volume.u16value _ _); eauto.
Qed.

Lemma down_self levels self pwm opposite :
  exists v,
    (Volume.down levels self pwm opposite).1.1 = Volume.with_vol self v /\
    (v = Z.max (Volume._vol self - 1) (Volume._min self) \/
     v = Volume._min self).
Proof.
  unfold Volume.down; cbv zeta. destruct opposite as [btn|]; [|eauto].
  destruct (get_signal levels btn); destruct (Volume.u16value _ _); eauto.
Qed.

Lemma volume_press_self (s : Volume.t F * PWM) p :
  Volume._min s.1 <= Volume._vol s.1 <= Volume._max s.1 ->
  exists v,
    (volume_press s p).1 = Volume.with_vol s.1 v /\
    Volume._min s.1 <= v <= Volume._max s.1.
Proof.
  intros Hv. destruct p as [levels opposite|levels opposite]; simpl.
  - destruct (up_self levels s.1 s.2 opposite) as (v & -> & Hcases).
    exists v. split; [done|lia].
  - destruct (down_self levels s.1 s.2 opposite) as (v & -> & Hcases).
    exists v. split; [done|lia].
Qed.

(** X16. The value stays within its bounds. From a value between [min] and
    [max], any sequence of [up] and [down], whatever the opposite button
    reads and whether the handlers return or raise, leaves the value between
    [min] and [max] and the bounds, the range, the curve and the polarity as
    they were. *)
Theorem volume_stays_within_bounds :
  forall (ps : list VolumePress) (s : Volume.t F * PWM),
    Volume._min s.1 <= Volume._vol s.1 <= Volume._max s.1 ->
    let s' := foldl volume_press s ps in
    Volume._min s'.1 <= Volume._vol s'.1 <= Volume._max s'.1 /\
    Volume._min s'.1 = Volume._min s.1 /\
    Volume._max s'.1 = Volume._max s.1 /\
    Volume._range s'.1 = Volume._range s.1 /\
    Volume._exp s'.1 = Volume._exp s.1 /\
    Volume._invert s'.1 = Volume._invert s.1.
Proof.
  induction ps as [|p ps IH]; intros s Hv; simpl; [done|].
  destruct (volume_press_self s p Hv) as (v & Hs & Hv').
  destruct (IH (volume_press s p)) as (? & ? & ? & ? & ? & ?).
  { by rewrite Hs. }
  rewrite Hs in *. simpl in *. done.
Qed.


Lemma up_effects levels self pwm opposite :
  let r := Volume.up levels self pwm opposite in
  pwm_freq r.1.2 = pwm_freq pwm /\
  (forall v, r.2 = Ok v ->
     v = Volume._vol r.1.1 /\
     exists d, Volume.u16value r.1.1 v = Ok d /\ pwm_duty r.1.2 = Some d) /\
  (forall e, r.2 = Err e -> r.1.2 = pwm) /\
  (opposite = None ->
     r.2 = Err (AttributeError Volume.no_get_signal) /\
     Volume._vol r.1.1 = Z.min (Volume._vol self + 1) (Volume._max self)).
Proof.
  unfold Volume.up; cbv zeta. destruct opposite as [btn|]; simpl.
  - destruct (get_signal levels btn);
      destruct (Volume.u16value _ _) as [d|e0] eqn:Hu; simpl in *;
      (split; [done|]); (split; [|split; [|done]]);
      try (intros v [= <-]; split; [done|]; by exists d);
      try done.
  - split; [done|]. split; [done|]. split; [done|]. done.
Qed.

Lemma down_effects levels self pwm opposite :
  let r := Volume.down levels self pwm opposite in
  pwm_freq r.1.2 = pwm_freq pwm /\
  (forall v, r.2 = Ok v ->
     v = Volume._vol r.1.1 /\
     exists d, Volume.u16value r.1.1 v = Ok d /\ pwm_duty r.1.2 = Some d) /\
  (forall e, r.2 = Err e -> r.1.2 = pwm) /\
  (opposite = None ->
     r.2 = Err (AttributeError Volume.no_get_signal) /\
     Volume._vol r.1.1 = Z.max (Volume._vol self - 1) (Volume._min self)).
Proof.
  unfold Volume.down; cbv zeta. destruct opposite as [btn|]; simpl.
  - destruct (get_signal levels btn);
      destruct (Volume.u16value _ _) as [d|e0] eqn:Hu; simpl in *;
      (split; [done|]); (split; [|split; [|done]]);
      try (intros v [= <-]; split; [done|]; by exists d);
      try done.
  - split; [done|]. split; [done|]. split; [done|]. done.
Qed.

(** X18. The handlers step the value before they write the duty cycle.
    [up] and [down] never write the frequency. When they return, the value
    returned is the new value and the duty cycle written is the one computed
    for it. When they raise, the PWM is as it was, though the value has
    moved: called without an opposite button, they raise the attribute error
    after the step. *)
Theorem handlers_step_then_write :
  forall levels self pwm opposite,
    (let r := Volume.up levels self pwm opposite in
     pwm_freq r.1.2 = pwm_freq pwm /\
     (forall v, r.2 = Ok v ->
        v = Volume._vol r.1.1 /\
        exists d, Volume.u16value r.1.1 v = Ok d /\
                  pwm_duty r.1.2 = Some d) /\
     (forall e, r.2 = Err e -> r.1.2 = pwm) /\
     (opposite = None ->
        r.2 = Err (AttributeError Volume.no_get_signal) /\
        Volume._vol r.1.1 =
          Z.min (Volume._vol self + 1) (Volume._max self))) /\
    (let r := Volume.down levels self pwm opposite in
     pwm_freq r.1.2 = pwm_freq pwm /\
     (forall v, r.2 = Ok v ->
        v = Volume._vol r.1.1 /\
        exists d, Volume.u16value r.1.1 v = Ok d /\
                  pwm_duty r.1.2 = Some d) /\
     (forall e, r.2 = Err e -> r.1.2 = pwm) /\
     (opposite = None ->
        r.2 = Err (AttributeError Volume.no_get_signal) /\
        Volume._vol r.1.1 =
          Z.max (Volume._vol self - 1) (Volume._min self))).
Proof.
  intros levels self pwm opposite.
  split; [apply up_effects|apply down_effects].
Qed.

(** X19. The constructor writes the frequency, then the duty cycle of
    [min]. With a supported curve the frequency is written whether or not
    the constructor returns. When it returns, the volume holds [initial] as
    its value, unclamped, with the bounds and their difference as the range,
    and the duty cycle written is the one computed for [min], whatever
    [initial] is. *)
Theorem constructor_writes_duty_of_minimum :
  (forall pwm min max initial freq (curve : Volume.Curve F) invert,
     supported_curve curve ->
     pwm_freq (Volume.__init__ pwm min max initial freq curve invert).1 =
       Some freq) /\
  (forall pwm min max initial freq (curve : Volume.Curve F) invert pwm' self,
     Volume.__init__ pwm min max initial freq curve invert = (pwm', Ok self) ->
     Volume.get_value self = initial /\
     Volume._min self = min /\ Volume._max self = max /\
     Volume._range self = max - min /\ Volume._invert self = invert /\
     Volume.curve_exp curve = Ok (Volume._exp self) /\
     pwm_freq pwm' = Some freq /\
     exists d, Volume.u16value self min = Ok d /\ pwm_duty pwm' = Some d).
Proof.
  split.
  - intros pwm min max initial freq curve invert Hc.
    unfold Volume.__init__.
    destruct (curve_exp_supported curve Hc) as [e ->].
    by destruct (Volume.u16value _ _).
  - intros pwm min max initial freq curve invert pwm' self.
    unfold Volume.__init__.
    destruct (Volume.curve_exp curve) as [exp|e]; [|done].
    destruct (Volume.u16value _ _) as [d|e] eqn:Hu; [|done].
    intros [= <- <-]. repeat split; try done.
    exists d. by split.
Qed.

(** X20. The duty cycle of an integer curve. With an int exponent that is
    not negative (the curves A, B and D among them), the duty computation
    divides by zero exactly when the range is zero and the exponent is not;
    otherwise its result is what [int()] makes of 65535 times the quotient
    of the two integer powers, taken from 1 on an inverted volume. With the
    exponent 0 a zero range divides nothing by zero. *)
Theorem duty_of_integer_curve :
  forall self value n,
    Volume._exp self = Some (EInt n) -> 0 <= n ->
    Volume.u16value self value =
    if (Volume._range self =? 0) && (0 <? n) then Err ZeroDivisionError
    else
      let q := f_div (f_of_Z (value ^ n)) (f_of_Z (Volume._range self ^ n)) in
      f_to_int (f_mul (f_of_Z 65535)
                  (if Volume._invert self then f_sub (f_of_Z 1) q else q)).
Proof.
  intros self value n He Hn. unfold Volume.u16value. rewrite He. simpl.
  rewrite (proj2 (Z.leb_le 0 n) Hn). simpl. unfold py_truediv. simpl.
  destruct (Z.eqb_spec (Volume._range self) 0) as [Hr|Hr];
    destruct (Z.ltb_spec 0 n) as [Hpos|Hzero]; simpl.
  - rewrite Hr, Z.pow_0_l by done. done.
  - assert (n = 0) as -> by lia. done.
  - rewrite (proj2 (Z.eqb_neq _ 0)); [done|]. by apply Z.pow_nonzero.
  - rewrite (proj2 (Z.eqb_neq _ 0)); [done|]. by apply Z.pow_nonzero.
Qed.
End VolumeMore.

(** ** The toggle and the switch *)

Lemma toggle_calls_parity ms : forall s : Toggle.t * bool,
  s.2 = Toggle._on_off s.1 ->
  Toggle._on_off (toggle_calls s ms).1 =
    xorb (Toggle._on_off s.1) (Nat.odd (length (filter is_Some ms))) /\
  (toggle_calls s ms).2 = Toggle._on_off (toggle_calls s ms).1.
Proof.
  induction ms as [|m ms IH]; intros s Hs.
  - simpl. by rewrite xorb_false_r.
  - unfold toggle_calls in *. cbn [foldl]. destruct m as [r|].
    + rewrite filter_cons_True by done. cbn [length].
      rewrite Nat.odd_succ, <- Nat.negb_odd.
      destruct (IH (Toggle.toggle s.1 s.2 (Some r)).1 eq_refl) as [-> ->].
      split; [|done]. simpl.
      by destruct (Toggle._on_off s.1), (Nat.odd _).
    + rewrite filter_cons_False by (by intros [? ?]).
      by apply (IH (Toggle.toggle s.1 s.2 None).1).
Qed.

(** X21. The toggle follows the parity of its calls. From its constructor,
    which writes the device off, the toggle is on after a sequence of calls
    exactly if an odd number of them came with a button, and the device is
    at the level the toggle holds. A call without a button raises the
    attribute error and changes neither. *)
Theorem toggle_follows_parity :
  (forall device ms,
     let s := toggle_calls (Toggle.__init__ device) ms in
     Toggle._on_off s.1 = Nat.odd (length (filter is_Some ms)) /\
     s.2 = Toggle._on_off s.1) /\
  (forall self device,
     Toggle.toggle self device None =
       (self, device, Err (AttributeError Toggle.no_get_name))).
Proof.
  split; [|done]. intros device ms.
  destruct (toggle_calls_parity ms (Toggle.__init__ device) eq_refl)
    as [Hp Hd].
  by split.
Qed.

(** X22. The switch follows its last call. After a sequence of calls of
    [on] and [off] the switch is on exactly if the last call was [on], and
    after at least one call the device is at the level the switch holds.
    The constructor leaves the device as it finds it and takes the switch
    for off: until the first call the two can differ. *)
Theorem switch_follows_last_call :
  forall device cs,
    let s := foldl switch_call (OnOff_Switch.__init__ device) cs in
    OnOff_Switch._on_off s.1 =
      match last cs with
      | Some (CallOn _) => true
      | _ => false
      end /\
    s.2 = match last cs with
          | Some _ => OnOff_Switch._on_off s.1
          | None => device
          end.
Proof.
  intros device cs. induction cs as [|c cs _] using rev_ind; [done|].
  rewrite foldl_snoc, last_snoc. by destruct c.
Qed.

(** ** Empty bundles *)

(** X23. An empty bundle is no bundle. The call made with the empty dict as
    keyword bundle is the call made with [None], and the call made with the
    empty tuple as positional bundle is the call made with [None]: only
    [myself] is passed. A positional value that is false but not [None] (0,
    [False], the empty string, the empty list) is passed as the one
    positional argument. *)
Theorem empty_bundle_is_no_bundle :
  forall self f fargs fkwargs,
    _do_function self f fargs (Some []) = _do_function self f fargs None /\
    _do_function self f (PTuple []) fkwargs =
      _do_function self f PNone fkwargs /\
    _do_function self f (PTuple []) (Some []) =
      {| c_function := f; c_args := [];
         c_kwargs := [("myself"%string, PObj self)] |} /\
    c_args (_do_function self f (PInt 0) fkwargs) = [PInt 0] /\
    c_args (_do_function self f (PBool false) fkwargs) = [PBool false] /\
    c_args (_do_function self f (PStr "") fkwargs) = [PStr ""] /\
    c_args (_do_function self f (PList []) fkwargs) = [PList []].
Proof.
  intros self f fargs fkwargs.
  split; [done|]. split; [by destruct fkwargs as [[|kv d]|]|].
  split; [done|].
  repeat split; by destruct fkwargs as [[|kv d]|].
Qed.

(** ** Instances on the script *)

(** Three interrupts on pin 11, 0, 50 and 250 ms after the clock read 1000,
    with one on pin 12 in between. *)
Example four_edges_accepted :
  accepted_by btn0 script_world
    [pressed_edge 11%nat true 1000; pressed_edge 12%nat false 1010;
     pressed_edge 11%nat true 1050; pressed_edge 11%nat true 1250] =
  [pressed_edge 11%nat true 1000; pressed_edge 11%nat true 1250].
Proof. reflexivity. Qed.

(** X2, on the roster of the script: assigning to pin 11 leaves pin 12. *)
Lemma KeyList_is_a_dictionary_witness :
  KeyList.__getitem__
    (KeyList.__setitem__ (_kroster script_world) 11%nat 5%nat) 12%nat =
  KeyList.__getitem__ (_kroster script_world) 12%nat.
Proof.
  refine (proj2 (proj2 (proj2 (proj2 (proj2
            (KeyList_is_a_dictionary (K:=nat) (V:=nat))))))
            (_kroster script_world) 11%nat 5%nat 12%nat _).
  discriminate.
Defined.

(** X3, on the roster of the script: the entry of pin 12 stays second. *)
Lemma __setitem___in_place_witness :
  KeyList.__setitem__ (_kroster script_world) 11%nat 5%nat !! 1%nat =
  Some (12%nat, 1%nat).
Proof.
  refine (proj1 (proj2 (__setitem___in_place (K:=nat) (V:=nat)))
            (_kroster script_world) 11%nat 5%nat 1%nat (12%nat, 1%nat) _ _).
  - reflexivity.
  - discriminate.
Defined.

(** X4, on [btn0]: a press, a reset, an unbinding and a new button on its
    pin later, its debounce interval is the 200 ms it was given. *)
Lemma configuration_is_kept_witness :
  exists b',
    heap (apply_ops script_world
            [OEdge (pressed_edge 11%nat true 1000); OResetCount btn0;
             OSetFunction btn0 None PNone None;
             ONew 11%nat None false 50 None PNone None]) !! btn0 = Some b' /\
    _dtime b' = 200 /\ _invert b' = true.
Proof.
  destruct (configuration_is_kept
              [OEdge (pressed_edge 11%nat true 1000); OResetCount btn0;
               OSetFunction btn0 None PNone None;
               ONew 11%nat None false 50 None PNone None]
              script_world btn0 btn0_initial eq_refl)
    as (b' & Hb' & _ & Hinv & _ & _ & Hd).
  exists b'. auto.
Defined.

(** X5, on the world of the script. *)
Lemma roster_pairs_pins_and_buttons_witness :
  NoDup (KeyList.values (_kroster script_world)).
Proof.
  exact (proj1 (proj2 (roster_pairs_pins_and_buttons script_world
                         reachable_script_world))).
Defined.

(** X6, on [btn0] once a new button took pin 11. *)
Lemma expired_for_good_witness :
  _exist_myself
    (apply_ops
       (Button_init script_world 11%nat None true 100 None PNone None).1
       [OEdge (pressed_edge 11%nat true 1000);
        ONew 12%nat None true 100 None PNone None;
        OSetFunction btn0 None PNone None]) btn0 = false.
Proof.
  refine (proj1 (expired_for_good
            [OEdge (pressed_edge 11%nat true 1000);
             ONew 12%nat None true 100 None PNone None;
             OSetFunction btn0 None PNone None]
            (Button_init script_world 11%nat None true 100 None PNone None).1
            btn0 _ _ _)).
  - constructor. apply reachable_script_world.
  - vm_compute. lia.
  - reflexivity.
Defined.

(** X7, on [btn0]: inverted, so pin 11 is armed on the falling edge. *)
Lemma interrupt_edge_matches_polarity_witness :
  irq script_world !! 11%nat = Some IRQ_FALLING.
Proof.
  exact (proj1 (interrupt_edge_matches_polarity script_world 11%nat btn0
                  btn0_initial reachable_script_world eq_refl eq_refl)).
Defined.

(** X8, on the script: a new button on pin 11 leaves pin 12 to
    [btnG_off]. *)
Lemma constructor_leaves_other_pins_witness :
  _get_myself
    (Button_init script_world 11%nat None true 100 None PNone None).1 12%nat =
  Some btnG_off.
Proof.
  refine (proj1 (constructor_leaves_other_pins script_world 11%nat None true
                   100 None PNone None reachable_script_world) 12%nat _).
  discriminate.
Defined.

(** X9, on a button that was never constructed. *)
Lemma counter_counts_accepted_presses_witness :
  get_count (run script_world [pressed_edge 11%nat true 1000]) 9%nat = 0.
Proof.
  exact (proj2 (proj2 (counter_counts_accepted_presses script_world
                         [pressed_edge 11%nat true 1000] 9%nat)) eq_refl).
Defined.

(** X10, on pin 16, which has no button. *)
Lemma interrupt_without_button_is_dropped_witness :
  run script_world
    [pressed_edge 16%nat true 1000; pressed_edge 16%nat false 2000] =
  script_world.
Proof.
  refine (proj2 (proj2 interrupt_without_button_is_dropped) script_world
            [pressed_edge 16%nat true 1000; pressed_edge 16%nat false 2000] _).
  repeat constructor.
Defined.

(** X11, on [btn0] with an interrupt on pin 12 in between. *)
Lemma buttons_are_independent_witness :
  accepted_by btn0 script_world
    [pressed_edge 11%nat true 1000; pressed_edge 12%nat false 1010;
     pressed_edge 11%nat true 1250] =
  accepted_by btn0 script_world
    (filter (fun e => e_pin e = 11%nat)
       [pressed_edge 11%nat true 1000; pressed_edge 12%nat false 1010;
        pressed_edge 11%nat true 1250]).
Proof.
  exact (proj1 (buttons_are_independent script_world
                  [pressed_edge 11%nat true 1000;
                   pressed_edge 12%nat false 1010;
                   pressed_edge 11%nat true 1250]
                  btn0 btn0_initial reachable_script_world eq_refl)).
Defined.

(** X12, on [btn0], the only button bound to the toggle. *)
Lemma callback_once_per_accepted_press_witness :
  count_calls "ledR_toggle.toggle"
    (calls (run script_world
              [pressed_edge 11%nat true 1000; pressed_edge 12%nat false 1010;
               pressed_edge 11%nat true 1050; pressed_edge 11%nat true 1250]))
  = 2%nat.
Proof.
  refine (proj1 (callback_once_per_accepted_press script_world
                   [pressed_edge 11%nat true 1000;
                    pressed_edge 12%nat false 1010;
                    pressed_edge 11%nat true 1050;
                    pressed_edge 11%nat true 1250]
                   btn0 btn0_initial "ledR_toggle.toggle"%string
                   eq_refl eq_refl _)).
  intros r' b' Hne.
  do 5 (destruct r' as [|r']; [try done; by intros [= <-]|]).
  done.
Defined.

(** X13, on [btn0] after two accepted presses. *)
Lemma reset_count_restarts_the_count_witness :
  get_count
    (reset_count
       (run script_world
          [pressed_edge 11%nat true 1000; pressed_edge 11%nat true 1250])
       btn0) btnG_on =
  get_count
    (run script_world
       [pressed_edge 11%nat true 1000; pressed_edge 11%nat true 1250])
    btnG_on.
Proof.
  refine (proj1 (proj2 (proj2 (reset_count_restarts_the_count
            (run script_world
               [pressed_edge 11%nat true 1000; pressed_edge 11%nat true 1250])
            btn0 []))) btnG_on _).
  discriminate.
Defined.

(** X14, on [btnY_up] unbound: the press is counted and nothing is
    called. *)
Lemma set_function_rebinds_only_witness :
  calls (_handler (set_function script_world btnY_up None PNone None).1
           (pressed_edge 15%nat true 1000)) = [] /\
  get_count (_handler (set_function script_world btnY_up None PNone None).1
               (pressed_edge 15%nat true 1000)) btnY_up = 1.
Proof.
  refine (proj2 (proj2 set_function_rebinds_only) script_world btnY_up
            {| _pin := 15%nat;
               _invert := true;
               _signal := {| sig_pin := 15%nat; sig_invert := true |};
               _name := "Y_up";
               _time_ticks := 0;
               _dtime := 200;
               _count := 0;
               _function := Some "ledY_vol.up"%string;
               _fargs := PTuple [];
               _fkwargs := Some [("opposite"%string, PObj btnY_down)] |}
            None PNone None (pressed_edge 15%nat true 1000) _ _ _ _ _);
    [reflexivity | reflexivity | reflexivity | vm_compute; discriminate
    | reflexivity].
Defined.

(** X15, on the new [btn0] with the clock at 100: too early. *)
Lemma accepted_iff_elapsed_in_window_witness :
  get_count (_handler script_world (pressed_edge 11%nat true 100)) btn0 =
    get_count script_world btn0 + 1 <->
  Signal_value (e_levels (pressed_edge 11%nat true 100))
    (_signal btn0_initial) = true /\
  200 <= (100 - 0) mod TICKS_PERIOD < TICKS_HALF.
Proof.
  refine (proj1 (accepted_iff_elapsed_in_window script_world
                   (pressed_edge 11%nat true 100) btn0 btn0_initial 0
                   _ _ _ _));
    [reflexivity | reflexivity | reflexivity | vm_compute; discriminate].
Defined.

(** X16, on the script's volume at 5. *)
Lemma volume_stays_within_bounds_witness :
  0 <=
  Volume._vol
    (foldl volume_press (Volume.with_vol ledY_vol 5, pwm_unset)
       [PressUp (fun _ => true) (Some btnY_down_bound);
        PressUp (fun _ => false) (Some btnY_down_bound);
        PressDown (fun _ => true) None]).1 <= 10.
Proof.
  refine (proj1 (volume_stays_within_bounds (F:=Q)
                   [PressUp (fun _ => true) (Some btnY_down_bound);
                    PressUp (fun _ => false) (Some btnY_down_bound);
                    PressDown (fun _ => true) None]
                   (Volume.with_vol ledY_vol 5, pwm_unset) _)).
  simpl. lia.
Defined.


(** X18, on the script's volume at 5, called without an opposite
    button. *)
Lemma handlers_step_then_write_witness :
  (Volume.up (fun _ => true) (Volume.with_vol ledY_vol 5) pwm_unset None).2 =
    Err (AttributeError Volume.no_get_signal) /\
  Volume._vol
    (Volume.up (fun _ => true) (Volume.with_vol ledY_vol 5) pwm_unset
       None).1.1 = 6.
Proof.
  exact (proj2 (proj2 (proj2 (proj1
           (handlers_step_then_write (F:=Q) (fun _ => true)
              (Volume.with_vol ledY_vol 5) pwm_unset None)))) eq_refl).
Defined.

(** X19, on the curve A of the script. *)
Lemma constructor_writes_duty_of_minimum_witness :
  pwm_freq
    (Volume.__init__ pwm_unset 0 10 7 120 (Volume.CStr (F:=Q) "A") false).1 =
  Some 120.
Proof.
  refine (proj1 (constructor_writes_duty_of_minimum (F:=Q)) pwm_unset 0 10 7
            120 (Volume.CStr "A") false _).
  by left.
Defined.

(** X20, on the script's volume: the duty cycle of 5 on the curve A. *)
Lemma duty_of_integer_curve_witness :
  Volume.u16value ledY_vol 5 = Ok 16383.
Proof.
  refine (duty_of_integer_curve (F:=Q) ledY_vol 5 2 eq_refl _).
  discriminate.
Defined.
